(** * Oasis problem layer: parameters, hooks and the L-shape problem

    A shallow embedding of [problems/__init__.py] and [problems/Lshape.py].
    Python dictionaries are finite maps over string keys, and where the code
    updates a dictionary in place they are objects of a store; Python floats
    are binary64 primitive floats, raised exceptions are values of an error
    type, and what a function prints, plots or assigns is the list of events
    it returns.  The solver framework (dolfin, MPI, the operating system) is
    not part of these two files: what the code asks of it is taken either as
    an argument of the embedded function or as a variable of a section. *)

From Stdlib Require Import Floats ZArith Ascii Uint63.
From stdpp Require Import gmap strings list fin_maps pretty.

Set Warnings "-register-all,-inexact-float,-notation-for-abbreviation".

Local Open Scope Z_scope.

(** ** Python values *)

Module Py.

(** The values that travel through the parameter dictionary and through the
    keyword namespace handed to the hooks.  [VObj cls args] is an object of
    the solver framework obtained by calling [cls] on [args] (for instance
    [Constant(0)]); [VGlobal] and [VFun] are references to a module-level
    object or function; [VMesh] is a mesh handle, of which this layer only
    ever reads the geometric dimension. *)
Inductive val : Type :=
| VNone
| VBool (b : bool)
| VInt (z : Z)
| VFloat (f : float)
| VStr (s : string)
| VList (l : list val)
| VTuple (l : list val)
| VDict (d : gmap string val)
| VObj (cls : string) (args : list val)
| VGlobal (name : string)
| VFun (name : string)
| VMesh (gdim : nat) (name : string).

(** [isinstance(v, dict)] *)
Definition isinstance_dict (v : val) : bool :=
  match v with VDict _ => true | _ => false end.

(** Exceptions raised inside this layer. [MissingArgument p] is the
    [TypeError] of a call that does not supply the named parameter [p];
    [NotModelled] marks an operand type the embedding does not interpret. *)
Inductive exn : Type :=
| MissingArgument (p : string)
| TypeError
| IndexError
| KeyError (k : string)
| ZeroDivisionError
| AttributeError
| SyntaxError
| NameError
| NotModelled.

Inductive outcome (A : Type) : Type :=
| Return (a : A)
| Raise (e : exn).

Arguments Return {A} a.
Arguments Raise {A} e.
Arguments VFloat f%_float.

(** What a hook does besides returning: the calls it makes into the
    plotting and assignment interface of the framework, and the attributes
    of module-level objects it sets. *)
Inductive event : Type :=
| EPlot (obj : val) (title : string)
| EAssign (target value : val)
| ESetAttr (obj attr : string) (value : val).

Record hook_result : Type := HookResult {
  effects : list event;
  result : outcome val
}.

Definition returns (v : val) : hook_result := HookResult [] (Return v).
Definition raises (e : exn) : hook_result := HookResult [] (Raise e).

(** Binding of one named parameter [p] of a function that also takes a
    keyword dictionary, in a call that passes a whole dictionary as keywords:
    the entry [p] is taken out of the keywords, what is left goes on to the
    next parameter and finally to the keyword dictionary of the callee. *)
Definition arg (p : string) (k : val -> gmap string val -> hook_result)
  (kwargs : gmap string val) : hook_result :=
  match kwargs !! p with
  | Some v => k v (delete p kwargs)
  | None => raises (MissingArgument p)
  end.

(** A list of strings, as the hooks iterate over one. *)
Fixpoint as_names (l : list val) : option (list string) :=
  match l with
  | [] => Some []
  | VStr s :: l' => option_map (cons s) (as_names l')
  | _ :: _ => None
  end.

(** [fmt % s] for a template with one [%s]. *)
Fixpoint percent_s (fmt s : string) : string :=
  match fmt with
  | EmptyString => EmptyString
  | String "%" (String "s" rest) => s +:+ rest
  | String c rest => String c (percent_s rest s)
  end%char.

(** ['{:Ns}'] and ['{:Nd}']: pad on the right, resp. on the left, up to
    width [w]; a longer text is kept whole. *)
Fixpoint spaces (n : nat) : string :=
  match n with O => EmptyString | S n' => String " "%char (spaces n') end.
Definition ljust (w : nat) (s : string) : string :=
  s +:+ spaces (w - String.length s).
Definition rjust (w : nat) (s : string) : string :=
  spaces (w - String.length s) +:+ s.

(** Integer literals of the decimal form [0] or [[1-9][0-9]*]. *)
Fixpoint digits_value (acc : Z) (s : string) : option Z :=
  match s with
  | EmptyString => Some acc
  | String c s' =>
      match Ascii.is_nat c with
      | Some d => digits_value (10 * acc + Z.of_nat d) s'
      | None => None
      end
  end.
Definition int_literal (tok : string) : option Z :=
  match tok with
  | EmptyString => None
  | String "0" EmptyString => Some 0
  | String "0" _ => None
  | _ => digits_value 0 tok
  end%char.

(** [eval(tok)] for one whitespace-free token: decimal integer literals and
    the constants [None], [True], [False] evaluate to themselves; what
    [eval] does on any other text is [eval_other]. *)
Definition eval (eval_other : string -> outcome val) (tok : string)
  : outcome val :=
  match int_literal tok with
  | Some n => Return (VInt n)
  | None =>
      if String.eqb tok "None" then Return VNone
      else if String.eqb tok "True" then Return (VBool true)
      else if String.eqb tok "False" then Return (VBool false)
      else eval_other tok
  end.

(** [dict(pairs)]: later pairs overwrite earlier ones. *)
Definition dict {V} (pairs : list (string * V)) : gmap string V :=
  foldl (fun d kv => <[kv.1 := kv.2]> d) ∅ pairs.

(** [dst.update(src)]: every item of [src] is stored into [dst]. *)
Definition dict_update {V} (dst src : gmap string V) : gmap string V :=
  map_fold (fun key v dst => <[key := v]> dst) dst src.

(** [os.path.join(a, b)]: an absolute [b] replaces [a]; otherwise [b] is
    appended, after a separator unless [a] is empty or ends with one. *)
Definition startswith_slash (s : string) : bool :=
  match s with String "/" _ => true | _ => false end%char.

Fixpoint endswith_slash (s : string) : bool :=
  match s with
  | EmptyString => false
  | String c EmptyString => Ascii.eqb c "/"
  | String _ s' => endswith_slash s'
  end%char.

Definition path_join (a b : string) : string :=
  if startswith_slash b then b
  else if String.eqb a "" || endswith_slash a then a +:+ b
  else a +:+ "/" +:+ b.

(** An [XDMFFile] object: the file it writes to, the attribute [function]
    once it is set, and its parameter [rewrite_function_mesh], which a new
    file has switched on. *)
Record XDMFFile : Type := MkXDMFFile {
  xdmf_filename : string;
  xdmf_function : option val;
  rewrite_function_mesh : bool
}.

Definition new_XDMFFile (filename : string) : XDMFFile :=
  MkXDMFFile filename None true.

(** *** Dictionary objects

    A dictionary is an object: two names, or two slots of other
    dictionaries, may refer to the same one, and what is stored through one
    of them is seen through the other.  The store gives the content of every
    dictionary object by its address.  A slot of a dictionary holds either a
    reference to a dictionary object or a value that is not a dictionary;
    such a value is held as it is, since nothing here looks into it or
    changes it. *)
Notation addr := positive.

Inductive oval : Type :=
| ODict (a : addr)
| ONone
| OBool (b : bool)
| OInt (z : Z)
| OFloat (f : float)
| OStr (s : string)
| OList (l : list val)
| OTuple (l : list val)
| OObj (cls : string) (args : list val)
| OGlobal (name : string)
| OFun (name : string)
| OMesh (gdim : nat) (name : string).

Arguments ODict a%_positive.
Arguments OFloat f%_float.

Notation store := (gmap addr (gmap string oval)).

(** [isinstance(x, dict)] for what a slot holds. *)
Definition is_dict (x : oval) : bool :=
  match x with ODict _ => true | _ => false end.

(** [obj[key] = v] *)
Definition setitem (obj : addr) (key : string) (v : oval) (h : store)
  : option store :=
  match h !! obj with
  | Some d => Some (<[obj := <[key := v]> d]> h)
  | None => None
  end.

End Py.

Import Py.

(** ** problems/__init__.py *)

Module Problems.

(** *** The memory probe *)

(** The fallback [getMemoryUsage(rss=True)], defined when importing the one
    of [fenicstools] fails.  [getoutput] is the shell ([commands.getoutput]),
    [mypid] is [getpid()].  The second whitespace-separated token of what
    [ps] printed is evaluated; an output of fewer than two tokens makes the
    subscript raise. *)
Definition getMemoryUsage_fallback (eval_other : string -> outcome val)
  (getoutput : string -> string) (mypid : N) (rss : bool) : outcome val :=
  let cmd := if rss then percent_s "ps -o rss %s" (pretty mypid)
             else percent_s "ps -o vsz %s" (pretty mypid) in
  match String.words (getoutput cmd) !! 1%nat with
  | Some mymemory => eval eval_other mymemory
  | None => Raise IndexError
  end.

(** The [try]/[except] around the import: [fenicstools] is what the import
    gives, [None] when it fails. *)
Definition getMemoryUsage (fenicstools : option (bool -> outcome val))
  (eval_other : string -> outcome val) (getoutput : string -> string)
  (mypid : N) : bool -> outcome val :=
  match fenicstools with
  | Some fast => fast
  | None => getMemoryUsage_fallback eval_other getoutput mypid
  end.

(** *** Default parameters *)

Definition krylov_solvers : gmap string val := dict [
  ("monitor_convergence", VBool false);
  ("report", VBool false);
  ("error_on_nonconvergence", VBool false);
  ("nonzero_initial_guess", VBool true);
  ("maximum_iterations", VInt 200);
  ("relative_tolerance", VFloat 1e-8);
  ("absolute_tolerance", VFloat 1e-8)
].

Definition NS_parameters : gmap string val := dict [
  ("nu", VFloat 0.01);
  ("t", VFloat 0.0);
  ("tstep", VInt 0);
  ("T", VFloat 1.0);
  ("dt", VFloat 0.01);
  ("AB_projection_pressure", VBool false);
  ("velocity_degree", VInt 2);
  ("pressure_degree", VInt 1);
  ("solver", VStr "IPCS_ABCN");
  ("max_iter", VInt 1);
  ("max_error", VFloat 1e-6);
  ("iters_on_first_timestep", VInt 2);
  ("use_krylov_solvers", VBool false);
  ("low_memory_version", VBool false);
  ("print_intermediate_info", VInt 10);
  ("print_velocity_pressure_convergence", VBool false);
  ("velocity_update_type", VStr "default");
  ("plot_interval", VInt 10);
  ("checkpoint", VInt 10);
  ("save_step", VInt 10);
  ("folder", VStr "results");
  ("restart_folder", VNone);
  ("output_timeseries_as_vector", VBool true);
  ("krylov_solvers", VDict krylov_solvers)
].

(** *** Printing on process 0 *)

Definition ESC : string := String "027"%char EmptyString.
Definition RED : string := ESC +:+ "[1;37;31m%s" +:+ ESC +:+ "[0m".
Definition BLUE : string := ESC +:+ "[1;37;34m%s" +:+ ESC +:+ "[0m".
Definition GREEN : string := ESC +:+ "[1;37;32m%s" +:+ ESC +:+ "[0m".

(** [rank] is [MPI.rank(mpi_comm_world())] of the calling process; the
    result is the list of lines the call prints. *)
Definition info_blue (rank : nat) (s : string) (check : bool) : list string :=
  if (rank =? 0)%nat && check then [percent_s BLUE s] else [].

Definition info_green (rank : nat) (s : string) (check : bool) : list string :=
  if (rank =? 0)%nat && check then [percent_s GREEN s] else [].

Definition info_red (rank : nat) (s : string) (check : bool) : list string :=
  if (rank =? 0)%nat && check then [percent_s RED s] else [].

(** *** Memory bookkeeping *)

Record OasisMemoryUsage : Type := MkOasisMemoryUsage {
  memory : Z;
  memory_vm : Z;
  prev : Z;
  prev_vm : Z
}.

(** [MPI.sum(comm, x)]: the sum of the values the processes contribute. *)
Definition MPI_sum (contributions : list Z) : Z := foldr Z.add 0 contributions.

(** The line ['{0:26s}  {1:10d} MB {2:10d} MB {3:10d} MB {4:10d} MB'.format]
    builds. *)
Definition memory_line (s : string) (d m d_vm m_vm : Z) : string :=
  ljust 26 s +:+ "  " +:+ rjust 10 (pretty d) +:+ " MB "
  +:+ rjust 10 (pretty m) +:+ " MB " +:+ rjust 10 (pretty d_vm) +:+ " MB "
  +:+ rjust 10 (pretty m_vm) +:+ " MB".

(** [self(s, verbose)] on the process of rank [rank].  [rss] and [vsz] are
    what [getMemoryUsage()] and [getMemoryUsage(False)] return on each
    process of the communicator.  The result is the object after the call
    and the lines printed. *)
Definition OasisMemoryUsage_call (self : OasisMemoryUsage) (s : string)
  (verbose : bool) (rank : nat) (rss vsz : list Z)
  : OasisMemoryUsage * list string :=
  let prev' := memory self in
  let prev_vm' := memory_vm self in
  let memory' := MPI_sum rss in
  let memory_vm' := MPI_sum vsz in
  (MkOasisMemoryUsage memory' memory_vm' prev' prev_vm',
   if (rank =? 0)%nat && verbose
   then info_blue rank (memory_line s (memory' - prev') memory'
                          (memory_vm' - prev_vm') memory_vm') true
   else []).

(** [OasisMemoryUsage(s)]: both counters start at 0, then one silent
    probe.  The fields [prev] and [prev_vm] come into being in that probe. *)
Definition OasisMemoryUsage_init (s : string) (rank : nat) (rss vsz : list Z)
  : OasisMemoryUsage * list string :=
  OasisMemoryUsage_call (MkOasisMemoryUsage 0 0 0 0) s false rank rss vsz.

(** *** Deep update *)

(** One round of the loop of [recursive_update] on the destination [dst],
    for the item [kv] of the source: the test on the key and the two
    values, then the assignment to [dst[key]], after the recursive call on
    the two objects where the test holds. *)
Definition update_item
  (recursive_update : addr -> addr -> store -> option store)
  (dst : addr) (acc : option store) (kv : string * oval) : option store :=
  match acc with
  | None => None
  | Some h =>
      match h !! dst with
      | None => None
      | Some dstd =>
          match kv.2, dstd !! kv.1 with
          | ODict s, Some (ODict t) =>
              match recursive_update t s h with
              | Some h' => setitem dst kv.1 (ODict t) h'
              | None => None
              end
          | _, _ => setitem dst kv.1 kv.2 h
          end
      end
  end.

(** [recursive_update(dst, src)] on the objects at the addresses [dst] and
    [src] of the store [h].  The result is the store when the call returns;
    the object returned is [dst] itself.  [items d] is the list that
    [src.items()] gives for the content [d], taken once before the loop,
    in the order the interpreter chooses.  [fuel] bounds the depth of the
    recursion, and [None] is a call that does not return within it, or one
    on an address that holds no dictionary; the recursion limit of the
    interpreter is not part of the model. *)
Fixpoint recursive_update (items : gmap string oval -> list (string * oval))
  (fuel : nat) (dst src : addr) (h : store) {struct fuel} : option store :=
  match fuel with
  | O => None
  | S fuel =>
      match h !! src with
      | None => None
      | Some srcd =>
          foldl (update_item (recursive_update items fuel) dst) (Some h)
            (items srcd)
      end
  end.

(** *** Default hooks

    Every hook is called with the whole run-time namespace as keywords. *)

Definition body_force : gmap string val -> hook_result :=
  arg "mesh" (fun mesh NS_namespace =>
    match mesh with
    | VMesh dim _ => returns (VObj "Constant" [VTuple (replicate dim (VInt 0))])
    | _ => raises AttributeError
    end).

Definition scalar_source : gmap string val -> hook_result :=
  arg "scalar_components" (fun scalar_components NS_namespace =>
    match scalar_components with
    | VList cs =>
        match as_names cs with
        | Some names =>
            returns (VDict (dict ((fun ci => (ci, VObj "Constant" [VInt 0]))
                                    <$> names)))
        | None => raises NotModelled
        end
    | _ => raises NotModelled
    end).

Definition initialize (NS_namespace : gmap string val) : hook_result :=
  returns VNone.

Definition create_bcs : gmap string val -> hook_result :=
  arg "sys_comp" (fun sys_comp NS_namespace =>
    match sys_comp with
    | VList us =>
        match as_names us with
        | Some names =>
            returns (VDict (dict ((fun ui => (ui, VList [])) <$> names)))
        | None => raises NotModelled
        end
    | _ => raises NotModelled
    end).

Definition velocity_tentative_hook (NS_namespace : gmap string val)
  : hook_result := returns VNone.

Definition pressure_hook (NS_namespace : gmap string val) : hook_result :=
  returns VNone.

Definition scalar_hook (NS_namespace : gmap string val) : hook_result :=
  returns VNone.

Definition start_timestep_hook (NS_namespace : gmap string val)
  : hook_result := returns VNone.

Definition temporal_hook (NS_namespace : gmap string val) : hook_result :=
  returns VNone.

Definition pre_solve_hook (NS_namespace : gmap string val) : hook_result :=
  returns (VDict ∅).

Definition theend_hook (NS_namespace : gmap string val) : hook_result :=
  returns VNone.

(** *** Timer *)

(** [OasisTimer(task, verbose)]: the timer of the framework is started on
    [task] and the task is announced when [verbose]. The result is the
    task the timer runs on and the lines printed. *)
Definition OasisTimer_init (rank : nat) (task : string) (verbose : bool)
  : string * list string :=
  (task, info_blue rank task verbose).

(** *** Time series files *)

(** [add_function_to_tstepfiles(function, newfolder, tstepfiles, tstep)].
    [name_of] is the method [name()] of a function; the dictionary
    [tstepfiles] is updated in place in the source, here the updated
    dictionary is the result. *)
Definition add_function_to_tstepfiles (name_of : val -> string)
  (function : val) (newfolder : string) (tstepfiles : gmap string XDMFFile)
  (tstep : Z) : gmap string XDMFFile :=
  let name := name_of function in
  let tstepfolder := path_join newfolder "Timeseries" in
  let file :=
    new_XDMFFile
      (path_join tstepfolder
         (name +:+ "_from_tstep_" +:+ pretty tstep +:+ ".xdmf")) in
  let tstepfiles := <[name := file]> tstepfiles in
  let tstepfiles :=
    alter (fun f => MkXDMFFile (xdmf_filename f) (Some function)
                      (rewrite_function_mesh f)) name tstepfiles in
  alter (fun f => MkXDMFFile (xdmf_filename f) (xdmf_function f) false)
    name tstepfiles.

End Problems.

(** ** problems/Lshape.py *)

Module Lshape.

(** A point of the plane: [x[0]] and [x[1]]. *)
Definition point : Type := float * float.

Section dolfin.

(** What the problem file takes from the framework: the tolerance
    [DOLFIN_EPS], the comparison [near(x, x0)], and the mesh interface. *)
Variable DOLFIN_EPS : float.
Variable near : float -> float -> bool.

Context {Mesh MeshFunction : Type}.
Variable UnitSquareMesh : Z -> Z -> Mesh.
Variable new_MeshFunction : string -> Mesh -> Z -> MeshFunction.
Variable set_all : MeshFunction -> N -> MeshFunction.
Variable mark : (point -> bool -> bool) -> MeshFunction -> N -> MeshFunction.
Variable SubMesh : Mesh -> MeshFunction -> N -> Mesh.

(** [Submesh.inside(x, on_boundary)] *)
Definition Submesh_inside (x : point) (on_boundary : bool) : bool :=
  (0.25 - DOLFIN_EPS <? x.1)%float && (0.25 - DOLFIN_EPS <? x.2)%float.

(** [mesh(Nx, Ny)].  [set_all] and [mark] update [mf1] in place in the
    source; here each gives the updated marker function. *)
Definition mesh (Nx Ny : Z) : Mesh :=
  let mesh_ := UnitSquareMesh Nx Ny in
  let subm := Submesh_inside in
  let mf1 := new_MeshFunction "size_t" mesh_ 2 in
  let mf1 := set_all mf1 0%N in
  let mf1 := mark subm mf1 1%N in
  SubMesh mesh_ mf1 0%N.

Definition inlet (x : point) (on_boundary : bool) : bool :=
  near (x.2 - 1)%float 0%float && on_boundary.

Definition outlet (x : point) (on_boundary : bool) : bool :=
  near (x.1 - 1)%float 0%float && on_boundary.

Definition walls (x : point) (on_boundary : bool) : bool :=
  near x.1 0%float || near x.2 0%float ||
  ((0.25 - 5 * DOLFIN_EPS <? x.1)%float &&
   (0.25 - 5 * DOLFIN_EPS <? x.2)%float) && on_boundary.

End dolfin.

(** The problem-specific parameters and their shallow update into the
    default set. *)
Definition Re : float := 200.
Definition nu : float := 1 / Re.

Definition overrides : gmap string val := dict [
  ("nu", VFloat nu);
  ("T", VInt 10);
  ("dt", VFloat 0.01);
  ("Re", VFloat Re);
  ("Nx", VInt 40);
  ("Ny", VInt 40);
  ("folder", VStr "Lshape_results");
  ("max_iter", VInt 1);
  ("plot_interval", VInt 1);
  ("velocity_degree", VInt 2);
  ("velocity_update_type", VStr "lumping");
  ("use_krylov_solvers", VBool true)
].

Definition NS_parameters : gmap string val :=
  dict_update Problems.NS_parameters overrides.

(** The module-level inlet pressure [Expression("sin(pi*t)", t=0.)]. *)
Definition p_in : val := VGlobal "p_in".

Definition create_bcs : gmap string val -> hook_result :=
  arg "V" (fun V => arg "Q" (fun Q => arg "sys_comp"
    (fun sys_comp NS_namespace =>
      match sys_comp with
      | VList us =>
          match as_names us with
          | Some names =>
              let bcs := dict ((fun ui => (ui, VList [])) <$> names) in
              let bc0 := VObj "DirichletBC" [V; VFloat 0; VFun "walls"] in
              let pc0 := VObj "DirichletBC" [Q; p_in; VFun "inlet"] in
              let pc1 := VObj "DirichletBC" [Q; VFloat 0; VFun "outlet"] in
              let bcs := <["u0" := VList [bc0]]> bcs in
              let bcs := <["u1" := VList [bc0]]> bcs in
              let bcs := <["p" := VList [pc0; pc1]]> bcs in
              returns (VDict bcs)
          | None => raises NotModelled
          end
      | _ => raises NotModelled
      end))).

Definition pre_solve_hook : gmap string val -> hook_result :=
  arg "mesh" (fun mesh NS_namespace =>
    let Vv := VObj "VectorFunctionSpace" [mesh; VStr "CG"; VInt 1] in
    returns (VDict (dict [("Vv", Vv); ("uv", VObj "Function" [Vv])]))).

Definition start_timestep_hook : gmap string val -> hook_result :=
  arg "t" (fun t NS_namespace =>
    HookResult [ESetAttr "p_in" "t" t] (Return VNone)).

(** [tstep % plot_interval] is interpreted on integers, which is what the
    solver passes. *)
Definition temporal_hook : gmap string val -> hook_result :=
  arg "tstep" (fun tstep => arg "q_" (fun q_ => arg "u_" (fun u_ =>
  arg "uv" (fun uv => arg "Vv" (fun Vv => arg "plot_interval"
    (fun plot_interval NS_namespace =>
      match tstep, plot_interval with
      | VInt a, VInt b =>
          if b =? 0 then raises ZeroDivisionError
          else if a `mod` b =? 0 then
            match q_ with
            | VDict q =>
                match q !! "p" with
                | Some qp =>
                    HookResult
                      [EPlot qp "Pressure";
                       EAssign uv (VObj "project" [u_; Vv]);
                       EPlot uv "Velocity"]
                      (Return VNone)
                | None => raises (KeyError "p")
                end
            | _ => raises NotModelled
            end
          else returns VNone
      | _, _ => raises NotModelled
      end)))))).

End Lshape.

(** ** The hook registry *)

(** The callback slots the solver calls by name. *)
Inductive hook_slot : Type :=
| Hbody_force
| Hscalar_source
| Hinitialize
| Hcreate_bcs
| Hvelocity_tentative_hook
| Hpressure_hook
| Hscalar_hook
| Hstart_timestep_hook
| Htemporal_hook
| Hpre_solve_hook
| Htheend_hook.

(** A problem module: the defaults, or the L-shape problem, which imports
    every default and then redefines four of them. *)
Inductive problem : Type := DefaultProblem | LshapeProblem.

Definition default_hook (h : hook_slot) : gmap string val -> hook_result :=
  match h with
  | Hbody_force => Problems.body_force
  | Hscalar_source => Problems.scalar_source
  | Hinitialize => Problems.initialize
  | Hcreate_bcs => Problems.create_bcs
  | Hvelocity_tentative_hook => Problems.velocity_tentative_hook
  | Hpressure_hook => Problems.pressure_hook
  | Hscalar_hook => Problems.scalar_hook
  | Hstart_timestep_hook => Problems.start_timestep_hook
  | Htemporal_hook => Problems.temporal_hook
  | Hpre_solve_hook => Problems.pre_solve_hook
  | Htheend_hook => Problems.theend_hook
  end.

Definition hook_of (pb : problem) (h : hook_slot)
  : gmap string val -> hook_result :=
  match pb, h with
  | LshapeProblem, Hcreate_bcs => Lshape.create_bcs
  | LshapeProblem, Hpre_solve_hook => Lshape.pre_solve_hook
  | LshapeProblem, Hstart_timestep_hook => Lshape.start_timestep_hook
  | LshapeProblem, Htemporal_hook => Lshape.temporal_hook
  | _, _ => default_hook h
  end.

(** The parameters each hook names in its signature besides the keyword
    dictionary. *)
Definition required (pb : problem) (h : hook_slot) : list string :=
  match pb, h with
  | _, Hbody_force => ["mesh"]
  | _, Hscalar_source => ["scalar_components"]
  | DefaultProblem, Hcreate_bcs => ["sys_comp"]
  | LshapeProblem, Hcreate_bcs => ["V"; "Q"; "sys_comp"]
  | LshapeProblem, Hpre_solve_hook => ["mesh"]
  | LshapeProblem, Hstart_timestep_hook => ["t"]
  | LshapeProblem, Htemporal_hook =>
      ["tstep"; "q_"; "u_"; "uv"; "Vv"; "plot_interval"]
  | _, _ => []
  end.

(** A call is a no-op when it has no effect and returns nothing or an
    empty mapping. *)
Definition no_op (r : hook_result) : bool :=
  match effects r, result r with
  | [], Return VNone => true
  | [], Return (VDict d) => bool_decide (size d = 0%nat)
  | _, _ => false
  end.

(** ** Vocabulary of the properties *)

(** [tolerant f req]: called with a namespace that has the keys [req], [f]
    gives the same result whatever further entries are added, and does not
    fail for want of an argument. *)
Definition tolerant (f : gmap string val -> hook_result) (req : list string)
  : Prop :=
  forall ctx extra : gmap string val,
    (forall p, p ∈ req -> is_Some (ctx !! p)) ->
    ctx ##ₘ extra ->
    f (ctx ∪ extra) = f ctx /\
    (forall p, result (f (ctx ∪ extra)) <> Raise (MissingArgument p)).

(** [strict f req]: [f] fails for want of an argument when a key of [req]
    is absent. *)
Definition strict (f : gmap string val -> hook_result) (req : list string)
  : Prop :=
  forall (ctx : gmap string val) (p : string),
    p ∈ req -> ctx !! p = None ->
    exists q, result (f ctx) = Raise (MissingArgument q).

(** What the processes of a run of [size] processes print together when
    each of them makes the call [info], and the ranks among them that print
    at all. *)
Definition console (info : nat -> list string) (size : nat) : list string :=
  concat (info <$> seq 0 size).

Definition emitting_ranks (info : nat -> list string) (size : nat) : list nat :=
  filter (fun rank => info rank <> []) (seq 0 size).

(** Both coordinates of [x] above [0.25 - DOLFIN_EPS]. *)
Definition in_corner (DOLFIN_EPS : float) (x : Lshape.point) : Prop :=
  (0.25 - DOLFIN_EPS <? x.1)%float = true /\
  (0.25 - DOLFIN_EPS <? x.2)%float = true.

(** The integer [z] as a float, and the coordinate of the grid line [i] of
    the unit interval cut in [N] equal parts. *)
Definition float_of_Z (z : Z) : float := PrimFloat.of_uint63 (Uint63.of_Z z).

Definition grid_line (N i : Z) : float := (float_of_Z i / float_of_Z N)%float.

(** [x] is in the square [(i, j)] of the unit square cut in [Nx] by [Ny]
    squares, the sides of the square included. *)
Definition in_square (Nx Ny i j : Z) (x : Lshape.point) : Prop :=
  (grid_line Nx i <=? x.1)%float = true /\
  (x.1 <=? grid_line Nx (i + 1))%float = true /\
  (grid_line Ny j <=? x.2)%float = true /\
  (x.2 <=? grid_line Ny (j + 1))%float = true.

(** The place of a float in the order of the floats, by sign, exponent and
    mantissa; a NaN has none. *)
Definition sf_key (f : spec_float) : option (Z * Z * Z) :=
  match f with
  | S754_nan => None
  | S754_infinity true => Some (-2, 0, 0)
  | S754_infinity false => Some (2, 0, 0)
  | S754_zero _ => Some (0, 0, 0)
  | S754_finite true m e => Some (-1, - e, - Zpos m)
  | S754_finite false m e => Some (1, e, Zpos m)
  end.

Definition key_compare (k1 k2 : Z * Z * Z) : comparison :=
  match k1.1.1 ?= k2.1.1 with
  | Eq => match k1.1.2 ?= k2.1.2 with
          | Eq => k1.2 ?= k2.2
          | r => r
          end
  | r => r
  end.

(** The size of a value: one more than the sizes of the values of a
    dictionary together, and one for any other value. *)
Fixpoint val_size (v : val) : nat :=
  match v with
  | VDict d => S (map_fold (fun _ v acc => (val_size v + acc)%nat) 0%nat d)
  | _ => 1%nat
  end.

(** The deep merge as the specification words it, on values: under every
    key of [src], the merge of the two values when both are mappings, and
    the value of [src] otherwise; the other keys of [dst] are kept. *)
Fixpoint deep_merge_rec (src : val) (dst : gmap string val)
  {struct src} : gmap string val :=
  match src with
  | VDict items =>
      map_fold (fun key val dst =>
        match dst !! key with
        | Some (VDict d) =>
            if isinstance_dict val
            then <[key := VDict (deep_merge_rec val d)]> dst
            else <[key := val]> dst
        | _ => <[key := val]> dst
        end) dst items
  | _ => dst
  end.

Definition deep_merge (dst src : gmap string val) : gmap string val :=
  deep_merge_rec (VDict src) dst.

(** The value a slot holds when it holds no reference, and the slot for a
    value that is not a dictionary. *)
Definition scalar_val (x : oval) : option val :=
  match x with
  | ODict _ => None
  | ONone => Some VNone
  | OBool b => Some (VBool b)
  | OInt z => Some (VInt z)
  | OFloat f => Some (VFloat f)
  | OStr s => Some (VStr s)
  | OList l => Some (VList l)
  | OTuple l => Some (VTuple l)
  | OObj cls args => Some (VObj cls args)
  | OGlobal name => Some (VGlobal name)
  | OFun name => Some (VFun name)
  | OMesh gdim name => Some (VMesh gdim name)
  end.

Definition oval_of (v : val) : option oval :=
  match v with
  | VDict _ => None
  | VNone => Some ONone
  | VBool b => Some (OBool b)
  | VInt z => Some (OInt z)
  | VFloat f => Some (OFloat f)
  | VStr s => Some (OStr s)
  | VList l => Some (OList l)
  | VTuple l => Some (OTuple l)
  | VObj cls args => Some (OObj cls args)
  | VGlobal name => Some (OGlobal name)
  | VFun name => Some (OFun name)
  | VMesh gdim name => Some (OMesh gdim name)
  end.

(** [read fuel h x]: the value seen through the slot [x] in the store [h],
    following references to a depth of at most [fuel]. *)
Fixpoint read (fuel : nat) (h : store) (x : oval) {struct fuel} : option val :=
  match x with
  | ODict a =>
      match fuel with
      | O => None
      | S fuel =>
          match h !! a with
          | None => None
          | Some cell =>
              let r := omap (read fuel h) cell in
              if decide (dom r = dom cell) then Some (VDict r) else None
          end
      end
  | _ => scalar_val x
  end.

(** [tree h a d F]: in the store [h] the object at [a] holds the value [d]
    and no dictionary object is reached twice from it: the objects reached
    are in [F], and those reached through different keys are different, and
    different from [a]. *)
Inductive tree (h : store) : addr -> gmap string val -> gset addr -> Prop :=
| tree_node (a : addr) (cell : gmap string oval) (d : gmap string val)
    (F : gset addr) (child : string -> gset addr) :
    h !! a = Some cell ->
    a ∈ F ->
    (forall k, cell !! k = None -> d !! k = None) ->
    (forall k x v, cell !! k = Some x -> scalar_val x = Some v ->
       d !! k = Some v) ->
    (forall k a', cell !! k = Some (ODict a') ->
       exists d', d !! k = Some (VDict d') /\ tree h a' d' (child k)) ->
    (forall k, child k ⊆ F) ->
    (forall k, a ∉ child k) ->
    (forall k1 k2, k1 <> k2 -> child k1 ## child k2) ->
    tree h a d F.

(** The two objects a round of the loop merges, if it merges, and what the
    slot [k] of the destination holds after the loop. *)
Definition both_dict (x : oval) (y : option oval) : option (addr * addr) :=
  match x, y with
  | ODict s, Some (ODict t) => Some (t, s)
  | _, _ => None
  end.

Definition final_item (cellD cellS : gmap string oval) (k : string)
  : option oval :=
  match cellS !! k with
  | Some x =>
      match both_dict x (cellD !! k) with
      | Some (t, _) => Some (ODict t)
      | None => Some x
      end
  | None => cellD !! k
  end.

(** The state of the loop of [recursive_update] after the keys [P], started
    in the store [h] on a destination with the slots [cellD] and a source
    with the slots [cellS]. *)
Definition merge_inv (h : store) (dst : addr)
  (cellD cellS : gmap string oval) (Vd Vs : gmap string val)
  (FD : gset addr) (childD childS : string -> gset addr)
  (P : gset string) (g : store) : Prop :=
  (forall a, a ∉ FD -> g !! a = h !! a) /\
  (forall k b, k ∉ P -> b ∈ childD k -> g !! b = h !! b) /\
  (exists cg, g !! dst = Some cg /\
     forall k, cg !! k = if decide (k ∈ P) then final_item cellD cellS k
                         else cellD !! k) /\
  (forall k t s, k ∈ P -> both_dict (ODict s) (cellD !! k) = Some (t, s) ->
     cellS !! k = Some (ODict s) ->
     exists dk sk, Vd !! k = Some (VDict dk) /\ Vs !! k = Some (VDict sk) /\
       tree g t (deep_merge dk sk) (childD k ∪ childS k)).

(** The states an [OasisMemoryUsage] object goes through in a sequence of
    probes, each given by its label, its verbosity and the readings of the
    processes. *)
Fixpoint probe_states (self : Problems.OasisMemoryUsage) (rank : nat)
  (probes : list (string * bool * list Z * list Z))
  : list Problems.OasisMemoryUsage :=
  match probes with
  | [] => []
  | (s, verbose, rss, vsz) :: rest =>
      let self' := (Problems.OasisMemoryUsage_call self s verbose rank rss vsz).1 in
      self' :: probe_states self' rank rest
  end.

(** The [TypeError] of a call that lacks an argument. *)
Definition missing_argument (e : exn) : bool :=
  match e with MissingArgument _ => true | _ => false end.

(** [needs f req]: called without one of the keys [req], [f] does nothing
    but fail for want of an argument. *)
Definition needs (f : gmap string val -> hook_result) (req : list string)
  : Prop :=
  forall (ctx : gmap string val) (p : string),
    p ∈ req -> ctx !! p = None ->
    exists e, missing_argument e = true /\ f ctx = raises e.

(** ** Data of the examples *)

(** The name of a function of the examples: the one it is referred to by. *)
Definition example_name_of (function : val) : string :=
  match function with VGlobal name => name | _ => "f" end.

(** The namespace used in the examples below: a two-dimensional mesh and two
    scalar components. *)
Definition example_namespace : gmap string val := dict [
  ("mesh", VMesh 2 "mesh");
  ("scalar_components", VList [VStr "alfa"; VStr "beta"]);
  ("t", VFloat 0.5);
  ("tstep", VInt 3)
].

(** A namespace for the end-of-timestep hook of the L-shape problem, and
    further entries of the solver namespace. *)
Definition example_timestep_namespace : gmap string val := dict [
  ("tstep", VInt 4);
  ("q_", VDict (dict [("p", VGlobal "p_"); ("u0", VGlobal "u0_")]));
  ("u_", VGlobal "u_");
  ("uv", VGlobal "uv");
  ("Vv", VGlobal "Vv");
  ("plot_interval", VInt 2)
].

Definition example_extra : gmap string val := dict [
  ("nu", VFloat 0.005);
  ("folder", VStr "Lshape_results");
  ("mesh", VMesh 2 "mesh")
].

(** Stores for the examples.  In the first the destination at 1 is
    [{a: {x:0, y:2}, b: 7}] and the source at 2 is [{a: {x:1}}].  In the
    second the destination at 1 holds one and the same empty dictionary,
    the object at 3, under [a] and under [b], and the source at 2 is
    [{a: {x:1}, b: {y:2}}].  In the third the default parameters are at 1,
    with their [krylov_solvers] at 3, the overrides of the L-shape problem
    at 2, and [{krylov_solvers: {report: True}}] at 4. *)
Definition example_heap : store :=
  {[ 1%positive := {[ "a" := ODict 3; "b" := OInt 7 ]};
     2%positive := {[ "a" := ODict 4 ]};
     3%positive := {[ "x" := OInt 0; "y" := OInt 2 ]};
     4%positive := {[ "x" := OInt 1 ]} ]}.

Definition example_shared_heap : store :=
  {[ 1%positive := {[ "a" := ODict 3; "b" := ODict 3 ]};
     2%positive := {[ "a" := ODict 4; "b" := ODict 5 ]};
     3%positive := ∅;
     4%positive := {[ "x" := OInt 1 ]};
     5%positive := {[ "y" := OInt 2 ]} ]}.

Definition example_params_heap : store :=
  {[ 1%positive := <["krylov_solvers" := ODict 3]>
                     (omap oval_of Problems.NS_parameters);
     2%positive := omap oval_of Lshape.overrides;
     3%positive := omap oval_of Problems.krylov_solvers;
     4%positive := {[ "krylov_solvers" := ODict 5 ]};
     5%positive := {[ "report" := OBool true ]} ]}.

(** The shell of the examples: [ps] prints a header line and, for the
    process 4242, a value; the resident size is 51234 and the virtual
    size is not a number. *)
Definition example_shell (cmd : string) : string :=
  if String.eqb cmd "ps -o rss 4242"
  then "  RSS" +:+ String "010"%char "51234"
  else "  VSZ" +:+ String "010"%char "None".

(** An instance of the framework for the examples: the tolerance of dolfin,
    and [near(x, x0)] as closeness up to that tolerance. *)
Definition example_eps : float := 3e-16.

Definition example_near (x x0 : float) : bool :=
  ((x0 - example_eps <=? x) && (x <=? x0 + example_eps))%float.

(** A mesh model for the examples: a cell is a triangle, given with the
    lower left and the upper right corner of the grid square it lies in and
    with the list of its vertices; a mesh is the list of its cells, a marker
    function a function on cells.  The unit square mesh cuts each of the
    [Nx * Ny] squares of the grid in two triangles along its diagonal.  The
    points counted to a cell are those of its grid square. *)
Definition example_cell : Type :=
  Lshape.point * Lshape.point * list Lshape.point.

Definition example_UnitSquareMesh (Nx Ny : Z) : list example_cell :=
  let X i := grid_line Nx i in
  let Y j := grid_line Ny j in
  j ← seqZ 0 Ny; i ← seqZ 0 Nx;
  [ ((X i, Y j), (X (i + 1), Y (j + 1)),
     [(X i, Y j); (X (i + 1), Y j); (X (i + 1), Y (j + 1))]);
    ((X i, Y j), (X (i + 1), Y (j + 1)),
     [(X i, Y j); (X i, Y (j + 1)); (X (i + 1), Y (j + 1))]) ].

Definition example_covers (c : example_cell) (x : Lshape.point) : Prop :=
  (c.1.1.1 <=? x.1)%float = true /\
  (x.1 <=? c.1.2.1)%float = true /\
  (c.1.1.2 <=? x.2)%float = true /\
  (x.2 <=? c.1.2.2)%float = true.

Definition example_new_MeshFunction (type : string)
  (m : list example_cell) (dim : Z) : example_cell -> N :=
  fun _ => 0%N.

Definition example_set_all (mf : example_cell -> N) (v : N)
  : example_cell -> N := fun _ => v.

Definition example_mark (inside : Lshape.point -> bool -> bool)
  (mf : example_cell -> N) (v : N) : example_cell -> N :=
  fun c => if forallb (fun x => inside x false) c.2 then v else mf c.

Definition example_SubMesh (m : list example_cell)
  (mf : example_cell -> N) (v : N) : list example_cell :=
  filter (fun c => mf c = v) m.

Definition example_mesh : Z -> Z -> list example_cell :=
  Lshape.mesh example_eps example_UnitSquareMesh example_new_MeshFunction
    example_set_all example_mark example_SubMesh.

(** * Properties *)

Import Problems.

(** ** Python helpers *)

Lemma as_names_strs (names : list string) : as_names (VStr <$> names) = Some names.
Proof.
  induction names as [|s names IH]; [done|].
  rewrite fmap_cons. cbn [as_names]. by rewrite IH.
Qed.

Lemma foldl_insert_const_lookup {V} (v : V) (names : list string)
    (acc : gmap string V) (k : string) :
  foldl (fun d kv => <[kv.1 := kv.2]> d) acc ((fun ui => (ui, v)) <$> names) !! k
  = if decide (k ∈ names) then Some v else acc !! k.
Proof.
  revert acc. induction names as [|n names IH]; intros acc.
  - by rewrite decide_False by apply not_elem_of_nil.
  - rewrite fmap_cons. cbn [foldl fst snd].
    rewrite IH. destruct (decide (k ∈ names)) as [Hin|Hnin].
    + rewrite decide_True by (by right). done.
    + destruct (decide (n = k)) as [->|Hne].
      * rewrite decide_True by (by left). apply lookup_insert_eq.
      * rewrite decide_False by (intros [?|?]%elem_of_cons; congruence).
        by apply lookup_insert_ne.
Qed.

Lemma dict_const_lookup {V} (v : V) (names : list string) (k : string) :
  dict ((fun ui => (ui, v)) <$> names) !! k
  = if decide (k ∈ names) then Some v else None.
Proof. unfold dict. by rewrite foldl_insert_const_lookup, lookup_empty. Qed.

Lemma dict_const_gset {V} (v : V) (names : list string) :
  dict ((fun ui => (ui, v)) <$> names) = gset_to_gmap v (list_to_set names).
Proof.
  apply map_eq; intros k. rewrite dict_const_lookup, lookup_gset_to_gmap.
  case_decide as H.
  - by rewrite option_guard_True by (by apply elem_of_list_to_set).
  - by rewrite option_guard_False by (by rewrite elem_of_list_to_set).
Qed.

Lemma dict_update_lookup {V} (dst src : gmap string V) (k : string) :
  dict_update dst src !! k =
    match src !! k with Some v => Some v | None => dst !! k end.
Proof.
  unfold dict_update. revert k.
  apply (map_fold_weak_ind (fun r (m : gmap string V) => forall k,
    r !! k = match m !! k with Some v => Some v | None => dst !! k end)).
  - intros k. by rewrite lookup_empty.
  - intros i x m r Hi IH k. destruct (decide (i = k)) as [->|Hne].
    + by rewrite !lookup_insert_eq.
    + rewrite !lookup_insert_ne by done. apply IH.
Qed.

Lemma dict_update_union {V} (dst src : gmap string V) :
  dict_update dst src = src ∪ dst.
Proof.
  apply map_eq; intros k. rewrite dict_update_lookup, lookup_union.
  by destruct (src !! k), (dst !! k).
Qed.

Lemma val_size_dict (d : gmap string val) :
  val_size (VDict d)
  = S (map_fold (fun _ v acc => (val_size v + acc)%nat) 0%nat d).
Proof. reflexivity. Qed.

Lemma val_size_lookup (d : gmap string val) (k : string) (v : val) :
  d !! k = Some v -> (val_size v < val_size (VDict d))%nat.
Proof.
  intros Hk. rewrite val_size_dict.
  rewrite <- (insert_delete_id d k v Hk).
  rewrite map_fold_insert_L.
  - lia.
  - intros; lia.
  - apply lookup_delete_eq.
Qed.

(** ** The embedding on sample inputs *)

Example percent_s_blue : percent_s BLUE "x" = ESC +:+ "[1;37;34mx" +:+ ESC +:+ "[0m".
Proof. reflexivity. Qed.

Example int_literal_decimal : int_literal "51234" = Some 51234%Z.
Proof. reflexivity. Qed.

Example int_literal_leading_zero : int_literal "012" = None.
Proof. reflexivity. Qed.

Example int_literal_not_digits : int_literal "12a" = None.
Proof. reflexivity. Qed.

Example words_of_ps_output :
  String.words ("  RSS" +:+ String "010"%char " 51234 ") = ["RSS"; "51234"].
Proof. reflexivity. Qed.

Example lshape_nu : (Lshape.nu =? 0.005)%float = true.
Proof. reflexivity. Qed.

Example memory_line_negative_delta :
  memory_line "Start" (-5) 10 0 3
  = "Start                               -5 MB         10 MB          0 MB          3 MB".
Proof. reflexivity. Qed.

Example lshape_temporal_hook_plots :
  Lshape.temporal_hook example_timestep_namespace
  = HookResult [EPlot (VGlobal "p_") "Pressure";
                EAssign (VGlobal "uv")
                  (VObj "project" [VGlobal "u_"; VGlobal "Vv"]);
                EPlot (VGlobal "uv") "Velocity"]
      (Return VNone).
Proof. reflexivity. Qed.

Example lshape_temporal_hook_skips :
  Lshape.temporal_hook (<["plot_interval" := VInt 3]> example_timestep_namespace)
  = returns VNone.
Proof. reflexivity. Qed.

Example lshape_temporal_hook_zero_interval :
  Lshape.temporal_hook (<["plot_interval" := VInt 0]> example_timestep_namespace)
  = raises ZeroDivisionError.
Proof. reflexivity. Qed.

Example lshape_temporal_hook_missing :
  Lshape.temporal_hook (delete "uv" example_timestep_namespace)
  = raises (MissingArgument "uv").
Proof. reflexivity. Qed.

Example lshape_start_timestep_hook_sets_time :
  Lshape.start_timestep_hook example_namespace
  = HookResult [ESetAttr "p_in" "t" (VFloat 0.5)] (Return VNone).
Proof. reflexivity. Qed.

(** ** Deep merge *)

Lemma deep_merge_step key v (dst : gmap string val) :
  match dst !! key with
  | Some (VDict d) =>
      if isinstance_dict v
      then <[key := VDict (deep_merge_rec v d)]> dst
      else <[key := v]> dst
  | _ => <[key := v]> dst
  end = <[key := match v, dst !! key with
                 | VDict s, Some (VDict d) => VDict (deep_merge d s)
                 | _, _ => v
                 end]> dst.
Proof.
  destruct (dst !! key) as [[]|]; destruct v; reflexivity.
Qed.

Lemma deep_merge_lookup (dst src : gmap string val) key :
  deep_merge dst src !! key =
    match src !! key with
    | None => dst !! key
    | Some v =>
        Some match v, dst !! key with
             | VDict s, Some (VDict d) => VDict (deep_merge d s)
             | _, _ => v
             end
    end.
Proof.
  unfold deep_merge at 1; simpl.
  revert key.
  apply (map_fold_weak_ind (fun r (m : gmap string val) => forall key,
    r !! key = match m !! key with
               | None => dst !! key
               | Some v =>
                   Some match v, dst !! key with
                        | VDict s, Some (VDict d) => VDict (deep_merge d s)
                        | _, _ => v
                        end
               end)).
  - intros key. by rewrite lookup_empty.
  - intros i x m r Hi IH key.
    rewrite deep_merge_step.
    destruct (decide (i = key)) as [->|Hne].
    + rewrite !lookup_insert_eq. f_equal.
      rewrite IH, Hi. reflexivity.
    + rewrite !lookup_insert_ne by done. apply IH.
Qed.

Lemma deep_merge_dom (dst src : gmap string val) :
  dom (deep_merge dst src) = dom dst ∪ dom src.
Proof.
  apply set_eq; intros k.
  rewrite elem_of_union, !elem_of_dom, deep_merge_lookup.
  destruct (src !! k) as [v|]; destruct (dst !! k) as [w|];
    split; try (intros [[? ?]|[? ?]]); try discriminate; eauto.
Qed.

Lemma merge_scalar (v : val) (y : option val) :
  isinstance_dict v = false ->
  match v, y with
  | VDict s, Some (VDict d) => VDict (deep_merge d s)
  | _, _ => v
  end = v.
Proof. by destruct v. Qed.

(** *** Slots *)

Lemma scalar_val_not_dict (x : oval) (v : val) :
  scalar_val x = Some v -> isinstance_dict v = false.
Proof. destruct x; simpl; intros H; by simplify_eq. Qed.

Lemma scalar_val_is_dict (x : oval) :
  is_dict x = false -> is_Some (scalar_val x).
Proof. destruct x; simpl; eauto. discriminate. Qed.

Lemma both_dict_Some x y t s :
  both_dict x y = Some (t, s) -> x = ODict s /\ y = Some (ODict t).
Proof.
  destruct x; simpl; try discriminate.
  destruct y as [[]|]; simpl; try discriminate.
  intros H. by simplify_eq.
Qed.

Lemma both_dict_None_dict s y :
  both_dict (ODict s) y = None ->
  y = None \/ exists x v, y = Some x /\ scalar_val x = Some v.
Proof.
  destruct y as [x|]; [|by left]. intros Hb. right.
  destruct x; simpl in *; try discriminate; eauto.
Qed.

Lemma both_dict_is_dict x y :
  is_dict x && is_dict y = false -> both_dict x (Some y) = None.
Proof. destruct x; try done. destruct y; try done. Qed.

Lemma update_item_merge rec dst g cg k x t s :
  g !! dst = Some cg -> both_dict x (cg !! k) = Some (t, s) ->
  update_item rec dst (Some g) (k, x) =
    match rec t s g with
    | Some h' => setitem dst k (ODict t) h'
    | None => None
    end.
Proof.
  intros Hg Hb. apply both_dict_Some in Hb as [-> Hk].
  unfold update_item. simpl. by rewrite Hg, Hk.
Qed.

Lemma update_item_assign rec dst g cg k x :
  g !! dst = Some cg -> both_dict x (cg !! k) = None ->
  update_item rec dst (Some g) (k, x) = Some (<[dst := <[k := x]> cg]> g).
Proof.
  intros Hg Hb. unfold update_item, setitem. simpl. rewrite Hg.
  destruct x; try reflexivity.
  destruct (cg !! k) as [[]|]; try reflexivity. discriminate.
Qed.

(** *** Objects reached once *)

Lemma tree_frame_sized (n : nat) :
  forall (h h' : store) (a : addr) (d : gmap string val) (F : gset addr),
    (val_size (VDict d) <= n)%nat ->
    tree h a d F ->
    (forall b, b ∈ F -> h' !! b = h !! b) ->
    tree h' a d F.
Proof.
  induction n as [|n IH]; intros h h' a d F Hn Ht Hagree.
  { rewrite val_size_dict in Hn. lia. }
  destruct Ht as [a cell d F child Ha HaF Hnone Hscal Hdict Hsub Hnot Hdisj].
  apply (tree_node h' a cell d F child); try done.
  - by rewrite Hagree.
  - intros k a' Hk. destruct (Hdict k a' Hk) as (d' & Hd' & Ht').
    exists d'. split; [done|].
    apply (IH h); [|done|].
    + apply val_size_lookup in Hd'. lia.
    + intros b Hb. apply Hagree. by apply (Hsub k).
Qed.

Lemma tree_frame (h h' : store) (a : addr) (d : gmap string val)
  (F : gset addr) :
  tree h a d F -> (forall b, b ∈ F -> h' !! b = h !! b) -> tree h' a d F.
Proof. by apply (tree_frame_sized (val_size (VDict d))). Qed.

Lemma tree_dom (h : store) (a : addr) (d : gmap string val) (F : gset addr) :
  tree h a d F -> exists cell, h !! a = Some cell /\ dom cell = dom d.
Proof.
  intros [a' cell d' F' child Ha HaF Hnone Hscal Hdict Hsub Hnot Hdisj].
  exists cell. split; [done|].
  apply set_eq; intros k. rewrite !elem_of_dom.
  destruct (cell !! k) as [x|] eqn:E.
  - split; [intros _|by eauto].
    destruct (is_dict x) eqn:Hx.
    + destruct x as [c| | | | | | | | | | |]; try discriminate.
      destruct (Hdict k c E) as (d0 & -> & _). by eauto.
    + destruct (scalar_val_is_dict x Hx) as [v Hv].
      rewrite (Hscal k x v E Hv). by eauto.
  - rewrite (Hnone k E). split; by intros [? ?].
Qed.

Lemma tree_read_sized (n : nat) :
  forall (h : store) (a : addr) (d : gmap string val) (F : gset addr),
    (val_size (VDict d) <= n)%nat ->
    tree h a d F ->
    read n h (ODict a) = Some (VDict d).
Proof.
  induction n as [|n IH]; intros h a d F Hn Ht.
  { rewrite val_size_dict in Hn. lia. }
  destruct (tree_dom h a d F Ht) as (cell0 & Hcell0 & Hdom).
  destruct Ht as [a cell d F child Ha HaF Hnone Hscal Hdict Hsub Hnot Hdisj].
  rewrite Ha in Hcell0. injection Hcell0 as <-.
  cbn [read]. rewrite Ha. cbv zeta.
  assert (Hr : omap (read n h) cell = d).
  { apply map_eq; intros k. rewrite lookup_omap.
    destruct (cell !! k) as [x|] eqn:E; simpl.
    - destruct (is_dict x) eqn:Hx.
      + destruct x as [c| | | | | | | | | | |]; try discriminate.
        destruct (Hdict k c E) as (d0 & Hd0 & Ht0).
        rewrite Hd0. apply (IH h c d0 (child k)); [|done].
        apply val_size_lookup in Hd0. lia.
      + destruct (scalar_val_is_dict x Hx) as [v Hv].
        rewrite (Hscal k x v E Hv).
        destruct n; destruct x; try done.
    - by rewrite (Hnone k E). }
  rewrite Hr. by rewrite decide_True.
Qed.

Lemma tree_flat (h : store) (a : addr) (cell : gmap string oval) :
  h !! a = Some cell ->
  map_Forall (fun _ x => is_dict x = false) cell ->
  tree h a (omap scalar_val cell) {[a]}.
Proof.
  intros Ha Hflat.
  apply (tree_node h a cell _ _ (fun _ => ∅)); try done.
  - by apply elem_of_singleton.
  - intros k E. by rewrite lookup_omap, E.
  - intros k x v E Hv. by rewrite lookup_omap, E.
  - intros k a' E. by specialize (Hflat k _ E).
Qed.

Lemma tree_one_child (h : store) (a c : addr) (cell : gmap string oval)
  (k0 : string) (d0 : gmap string val) (F0 : gset addr) :
  h !! a = Some (<[k0 := ODict c]> cell) ->
  map_Forall (fun _ x => is_dict x = false) cell ->
  tree h c d0 F0 -> a ∉ F0 ->
  tree h a (<[k0 := VDict d0]> (omap scalar_val cell)) ({[a]} ∪ F0).
Proof.
  intros Ha Hflat Hc HaF.
  apply (tree_node h a (<[k0 := ODict c]> cell) _ _
           (fun k => if decide (k = k0) then F0 else ∅)); try done.
  - apply elem_of_union. left. by apply elem_of_singleton.
  - intros k. destruct (decide (k = k0)) as [->|Hne].
    + by rewrite lookup_insert_eq.
    + rewrite !lookup_insert_ne by done. intros E. by rewrite lookup_omap, E.
  - intros k x v. destruct (decide (k = k0)) as [->|Hne].
    + rewrite lookup_insert_eq. by intros [= <-].
    + rewrite !lookup_insert_ne by done. intros E Hv.
      by rewrite lookup_omap, E.
  - intros k a'. destruct (decide (k = k0)) as [->|Hne].
    + rewrite !lookup_insert_eq. intros [= <-]. by exists d0.
    + rewrite !lookup_insert_ne by done. intros E.
      by specialize (Hflat k _ E).
  - intros k b Hb. destruct (decide (k = k0)); [|done].
    apply elem_of_union. by right.
  - intros k. by destruct (decide (k = k0)).
  - intros k1 k2 Hne b H1 H2.
    destruct (decide (k1 = k0)), (decide (k2 = k0)); try done. congruence.
Qed.

(** *** The loop of [recursive_update] *)

Section merge_loop.
Variable rec : addr -> addr -> store -> option store.
Variable n : nat.
Hypothesis rec_refines :
  forall (g : store) (t s : addr) (dk sk : gmap string val)
         (Ft Fs : gset addr),
    (val_size (VDict sk) <= n)%nat ->
    tree g t dk Ft -> tree g s sk Fs -> Ft ## Fs ->
    exists g', rec t s g = Some g'
      /\ tree g' t (deep_merge dk sk) (Ft ∪ Fs)
      /\ (forall a, a ∉ Ft -> g' !! a = g !! a).

Variables (h : store) (dst : addr).
Variables (cellD cellS : gmap string oval) (Vd Vs : gmap string val).
Variables (FD FS : gset addr) (childD childS : string -> gset addr).
Hypothesis size_Vs : (val_size (VDict Vs) <= S n)%nat.
Hypothesis dst_in : dst ∈ FD.
Hypothesis dst_dict :
  forall k a', cellD !! k = Some (ODict a') ->
    exists d', Vd !! k = Some (VDict d') /\ tree h a' d' (childD k).
Hypothesis dst_sub : forall k, childD k ⊆ FD.
Hypothesis dst_not : forall k, dst ∉ childD k.
Hypothesis dst_disj : forall k1 k2, k1 <> k2 -> childD k1 ## childD k2.
Hypothesis src_dict :
  forall k a', cellS !! k = Some (ODict a') ->
    exists d', Vs !! k = Some (VDict d') /\ tree h a' d' (childS k).
Hypothesis src_sub : forall k, childS k ⊆ FS.
Hypothesis separate : FD ## FS.

Lemma merge_loop_step (P : gset string) (g : store) (k : string) (x : oval) :
  cellS !! k = Some x -> k ∉ P ->
  merge_inv h dst cellD cellS Vd Vs FD childD childS P g ->
  exists g', update_item rec dst (Some g) (k, x) = Some g'
    /\ merge_inv h dst cellD cellS Vd Vs FD childD childS (P ∪ {[k]}) g'.
Proof.
  intros Hk HkP (I1 & I2 & (cg & Hcg & I3) & I4).
  assert (Hcgk : cg !! k = cellD !! k).
  { rewrite I3. by rewrite decide_False. }
  assert (HSD : forall k' b, b ∈ childS k' -> b ∉ FD).
  { intros k' b Hb HbD. apply (separate b); [done|]. by apply (src_sub k'). }
  assert (HnotS : forall k', dst ∉ childS k').
  { intros k' HD. by apply (HSD k' dst). }
  assert (Hin : forall k', k' <> k -> k' ∈ P ∪ {[k]} <-> k' ∈ P).
  { intros k' Hne. rewrite elem_of_union, elem_of_singleton. tauto. }
  assert (Hink : k ∈ P ∪ {[k]}).
  { apply elem_of_union. right. by apply elem_of_singleton. }
  destruct (both_dict x (cellD !! k)) as [[t s]|] eqn:Hb.
  - (* both values are dictionaries: they are merged in place *)
    pose proof Hb as Hb0.
    apply both_dict_Some in Hb as [-> HDk].
    destruct (dst_dict k t HDk) as (dk & HVd & Htd).
    destruct (src_dict k s Hk) as (sk & HVs & Hts).
    assert (Htd' : tree g t dk (childD k)).
    { apply (tree_frame h); [done|]. intros b Hb. by apply (I2 k). }
    assert (Hts' : tree g s sk (childS k)).
    { apply (tree_frame h); [done|]. intros b Hb. apply I1. by apply (HSD k). }
    destruct (rec_refines g t s dk sk (childD k) (childS k))
      as (g1 & Hrec & Htree1 & Hframe1); try done.
    { apply val_size_lookup in HVs. lia. }
    { intros b Hb1 Hb2. apply (HSD k b Hb2). by apply (dst_sub k). }
    assert (Hg1D : g1 !! dst = Some cg).
    { rewrite Hframe1; [done|apply dst_not]. }
    exists (<[dst := <[k := ODict t]> cg]> g1). split.
    { rewrite (update_item_merge rec dst g cg k (ODict s) t s); [|done|].
      - rewrite Hrec. unfold setitem. by rewrite Hg1D.
      - by rewrite Hcgk. }
    split; [|split; [|split]].
    + intros a Ha.
      assert (dst <> a) by (intros ->; by apply Ha).
      rewrite lookup_insert_ne by done.
      rewrite Hframe1; [by apply I1|].
      intros Hak. apply Ha. by apply (dst_sub k).
    + intros k' b Hk' Hb. apply not_elem_of_union in Hk' as [Hk'P Hk'k].
      rewrite elem_of_singleton in Hk'k.
      rewrite lookup_insert_ne by (intros ->; by apply (dst_not k')).
      rewrite Hframe1; [by apply (I2 k')|].
      intros Hbk. by apply (dst_disj k' k Hk'k b).
    + exists (<[k := ODict t]> cg). split; [by rewrite lookup_insert_eq|].
      intros k'. destruct (decide (k' = k)) as [->|Hne].
      * rewrite lookup_insert_eq, decide_True by done.
        unfold final_item. by rewrite Hk, Hb0.
      * rewrite lookup_insert_ne by done. rewrite I3.
        destruct (decide (k' ∈ P)).
        -- by rewrite decide_True by (by apply Hin).
        -- by rewrite decide_False by (by rewrite Hin).
    + intros k' t' s' Hk' Hb' HSk'.
      destruct (decide (k' = k)) as [->|Hne].
      * rewrite Hk in HSk'. injection HSk' as <-.
        rewrite Hb0 in Hb'. injection Hb' as <-.
        exists dk, sk. split; [done|]. split; [done|].
        apply (tree_frame g1); [done|].
        intros b Hb. apply lookup_insert_ne. intros ->.
        apply elem_of_union in Hb as [Hb|Hb];
          [by apply (dst_not k)|by apply (HnotS k)].
      * assert (Hk'P : k' ∈ P) by (by apply Hin).
        destruct (I4 k' t' s' Hk'P Hb' HSk') as (dk' & sk' & H1 & H2 & H3).
        exists dk', sk'. split; [done|]. split; [done|].
        apply (tree_frame g); [done|].
        intros b Hb.
        assert (HbD : dst <> b).
        { intros <-. apply elem_of_union in Hb as [Hb|Hb];
            [by apply (dst_not k')|by apply (HnotS k')]. }
        rewrite lookup_insert_ne by done.
        apply Hframe1. intros Hbk.
        apply elem_of_union in Hb as [Hb|Hb].
        -- by apply (dst_disj k' k Hne b).
        -- apply (HSD k' b Hb). by apply (dst_sub k).
  - (* otherwise the value of the source is stored *)
    exists (<[dst := <[k := x]> cg]> g). split.
    { apply update_item_assign; [done|]. by rewrite Hcgk. }
    split; [|split; [|split]].
    + intros a Ha.
      assert (dst <> a) by (intros ->; by apply Ha).
      rewrite lookup_insert_ne by done.
      by apply I1.
    + intros k' b Hk' Hb'. apply not_elem_of_union in Hk' as [Hk'P Hk'k].
      rewrite lookup_insert_ne by (intros ->; by apply (dst_not k')).
      by apply (I2 k').
    + exists (<[k := x]> cg). split; [by rewrite lookup_insert_eq|].
      intros k'. destruct (decide (k' = k)) as [->|Hne].
      * rewrite lookup_insert_eq, decide_True by done.
        unfold final_item. by rewrite Hk, Hb.
      * rewrite lookup_insert_ne by done. rewrite I3.
        destruct (decide (k' ∈ P)).
        -- by rewrite decide_True by (by apply Hin).
        -- by rewrite decide_False by (by rewrite Hin).
    + intros k' t' s' Hk' Hb' HSk'.
      destruct (decide (k' = k)) as [->|Hne].
      * rewrite Hk in HSk'. injection HSk' as ->. congruence.
      * assert (Hk'P : k' ∈ P) by (by apply Hin).
        destruct (I4 k' t' s' Hk'P Hb' HSk') as (dk' & sk' & H1 & H2 & H3).
        exists dk', sk'. split; [done|]. split; [done|].
        apply (tree_frame g); [done|].
        intros b Hb0. apply lookup_insert_ne. intros ->.
        apply elem_of_union in Hb0 as [Hb0|Hb0];
          [by apply (dst_not k')|by apply (HnotS k')].
Qed.

Lemma merge_loop (l : list (string * oval)) :
  forall (P : gset string) (g : store),
    NoDup l.*1 ->
    (forall k x, (k, x) ∈ l -> cellS !! k = Some x /\ k ∉ P) ->
    merge_inv h dst cellD cellS Vd Vs FD childD childS P g ->
    exists g', foldl (update_item rec dst) (Some g) l = Some g'
      /\ merge_inv h dst cellD cellS Vd Vs FD childD childS
           (P ∪ list_to_set l.*1) g'.
Proof.
  induction l as [|[k x] l IH]; intros P g Hnd Hl Hinv.
  - exists g. split; [done|]. simpl.
    by rewrite (right_id_L ∅ (∪)).
  - rewrite fmap_cons in Hnd. apply NoDup_cons in Hnd as [Hkl Hnd].
    destruct (Hl k x) as [Hk HkP]; [left|].
    destruct (merge_loop_step P g k x Hk HkP Hinv) as (g1 & Hstep & Hinv1).
    destruct (IH (P ∪ {[k]}) g1 Hnd) as (g' & Hfold & Hinv'); [|done|].
    { intros k' x' Hin. destruct (Hl k' x') as [H1 H2]; [by right|].
      split; [done|]. apply not_elem_of_union. split; [done|].
      rewrite elem_of_singleton. intros ->. apply Hkl.
      apply list_elem_of_fmap. by exists (k, x'). }
    exists g'. split.
    + cbn [foldl]. rewrite Hstep. exact Hfold.
    + rewrite fmap_cons. cbn [list_to_set fst].
      by rewrite (assoc_L (∪)).
Qed.
End merge_loop.

(** *** The deep update of separate objects *)

Section refinement.
Variable items : gmap string oval -> list (string * oval).
Hypothesis items_perm : forall m, items m ≡ₚ map_to_list m.

Lemma recursive_update_refines_sized (n : nat) :
  forall (fuel : nat) (h : store) (dst src : addr)
         (Vd Vs : gmap string val) (FD FS : gset addr),
    (val_size (VDict Vs) <= n)%nat -> (n <= fuel)%nat ->
    tree h dst Vd FD -> tree h src Vs FS -> FD ## FS ->
    exists h', recursive_update items fuel dst src h = Some h'
      /\ tree h' dst (deep_merge Vd Vs) (FD ∪ FS)
      /\ (forall a, a ∉ FD -> h' !! a = h !! a).
Proof.
  induction n as [|n IH]; intros fuel h dst src Vd Vs FD FS Hn Hfuel HD HS Hsep.
  { rewrite val_size_dict in Hn. lia. }
  destruct fuel as [|fuel]; [lia|].
  destruct HD as [dst cellD Vd FD childD HhD HDin HDnone HDscal HDdict HDsub
                    HDnot HDdisj].
  destruct HS as [src cellS Vs FS childS HhS HSin HSnone HSscal HSdict HSsub
                    HSnot HSdisj].
  cbn [recursive_update]. rewrite HhS.
  destruct (merge_loop (recursive_update items fuel) n
              (fun g t s dk sk Ft Fs Hsz Ht Hs Hd =>
                 IH fuel g t s dk sk Ft Fs Hsz ltac:(lia) Ht Hs Hd)
              h dst cellD cellS Vd Vs FD FS childD childS
              Hn HDin HDdict HDsub HDnot HDdisj HSdict HSsub Hsep
              (items cellS) ∅ h)
    as (h' & Hfold & I1 & I2 & (cg & Hcg & I3) & I4).
  { rewrite items_perm. apply NoDup_fst_map_to_list. }
  { intros k x Hin. rewrite items_perm in Hin.
    apply elem_of_map_to_list in Hin. split; [done|]. apply not_elem_of_empty. }
  { split; [done|]. split; [done|]. split.
    - exists cellD. split; [done|]. intros k.
      by rewrite decide_False by apply not_elem_of_empty.
    - intros k t s Hk. by apply not_elem_of_empty in Hk. }
  assert (Hkeys : forall k, k ∈ (∅ ∪ list_to_set (items cellS).*1 : gset string)
                            <-> is_Some (cellS !! k)).
  { intros k. rewrite elem_of_union, elem_of_list_to_set, list_elem_of_fmap.
    split.
    - intros [Hk|([k' x] & -> & Hin)]; [by apply not_elem_of_empty in Hk|].
      rewrite items_perm in Hin. apply elem_of_map_to_list in Hin. by exists x.
    - intros [x Hx]. right. exists (k, x). split; [done|].
      rewrite items_perm. by apply elem_of_map_to_list. }
  assert (Hfinal : forall k, cg !! k = final_item cellD cellS k).
  { intros k. rewrite I3. destruct (decide _) as [Hin|Hnin]; [done|].
    unfold final_item. destruct (cellS !! k) eqn:E; [|done].
    destruct Hnin. apply Hkeys. by exists o. }
  assert (HSD : forall k b, b ∈ childS k -> b ∉ FD).
  { intros k b Hb HbD. apply (Hsep b); [done|]. by apply (HSsub k). }
  exists h'. split; [exact Hfold|]. split; [|exact I1].
  apply (tree_node h' dst cg (deep_merge Vd Vs) (FD ∪ FS)
           (fun k => match cellS !! k with
                     | Some x =>
                         match both_dict x (cellD !! k) with
                         | Some _ => childD k ∪ childS k
                         | None => childS k
                         end
                     | None => childD k
                     end)).
  - exact Hcg.
  - apply elem_of_union. by left.
  - intros k. rewrite Hfinal. unfold final_item. rewrite deep_merge_lookup.
    destruct (cellS !! k) as [x|] eqn:ES.
    + destruct (both_dict x (cellD !! k)) as [[]|]; discriminate.
    + intros ED. rewrite (HSnone k ES). by apply HDnone.
  - intros k x v. rewrite Hfinal. unfold final_item. rewrite deep_merge_lookup.
    destruct (cellS !! k) as [y|] eqn:ES.
    + destruct (both_dict y (cellD !! k)) as [[t s]|] eqn:Hb.
      * intros [= <-]. discriminate.
      * intros [= <-] Hv. rewrite (HSscal k y v ES Hv). f_equal.
        apply merge_scalar. by apply (scalar_val_not_dict y).
    + intros ED Hv. rewrite (HSnone k ES). by apply (HDscal k x v).
  - intros k a'. rewrite Hfinal. unfold final_item. rewrite deep_merge_lookup.
    destruct (cellS !! k) as [y|] eqn:ES.
    + destruct (both_dict y (cellD !! k)) as [[t s]|] eqn:Hb.
      * intros [= <-]. pose proof Hb as Hb0.
        apply both_dict_Some in Hb as [-> HDk].
        destruct (I4 k t s) as (dk & sk & HVd & HVs & Ht); try done.
        { apply Hkeys. by exists (ODict s). }
        exists (deep_merge dk sk). split; [|done].
        by rewrite HVs, HVd.
      * intros [= ->].
        destruct (HSdict k a' ES) as (sk & HVs & Ht).
        exists sk. split.
        -- rewrite HVs. f_equal.
           destruct (both_dict_None_dict a' _ Hb) as [E|(x & v & E & Hv)].
           ++ by rewrite (HDnone k E).
           ++ rewrite (HDscal k x v E Hv).
              apply scalar_val_not_dict in Hv. by destruct v.
        -- apply (tree_frame h); [done|]. intros b Hb'. apply I1.
           by apply (HSD k).
    + intros ED. destruct (HDdict k a' ED) as (dk & HVd & Ht).
      exists dk. split; [by rewrite (HSnone k ES)|].
      apply (tree_frame h); [done|]. intros b Hb'. apply (I2 k); [|done].
      rewrite Hkeys, ES. by intros [? ?].
  - intros k b Hb. apply elem_of_union.
    destruct (cellS !! k); [|left; by apply (HDsub k)].
    destruct (both_dict _ _); [|right; by apply (HSsub k)].
    apply elem_of_union in Hb as [Hb|Hb];
      [left; by apply (HDsub k)|right; by apply (HSsub k)].
  - intros k Hb.
    assert (dst ∉ childS k) by (intros ?; by apply (HSD k dst)).
    destruct (cellS !! k); [|by apply (HDnot k)].
    destruct (both_dict _ _); [|done].
    apply elem_of_union in Hb as [Hb|Hb]; [by apply (HDnot k)|done].
  - intros k1 k2 Hne b Hb1 Hb2.
    assert (H1 : b ∈ childD k1 \/ b ∈ childS k1).
    { destruct (cellS !! k1); [|by left].
      destruct (both_dict _ _); [|by right]. by apply elem_of_union. }
    assert (H2 : b ∈ childD k2 \/ b ∈ childS k2).
    { destruct (cellS !! k2); [|by left].
      destruct (both_dict _ _); [|by right]. by apply elem_of_union. }
    destruct H1 as [H1|H1], H2 as [H2|H2].
    + by apply (HDdisj k1 k2 Hne b).
    + apply (HSD k2 b H2). by apply (HDsub k1).
    + apply (HSD k1 b H1). by apply (HDsub k2).
    + by apply (HSdisj k1 k2 Hne b).
Qed.

Lemma recursive_update_refines (fuel : nat) (h : store) (dst src : addr)
  (Vd Vs : gmap string val) (FD FS : gset addr) :
  tree h dst Vd FD -> tree h src Vs FS -> FD ## FS ->
  (val_size (VDict Vs) <= fuel)%nat ->
  exists h', recursive_update items fuel dst src h = Some h'
    /\ tree h' dst (deep_merge Vd Vs) (FD ∪ FS)
    /\ (forall a, a ∉ FD -> h' !! a = h !! a).
Proof.
  intros HD HS Hsep Hfuel.
  by apply (recursive_update_refines_sized (val_size (VDict Vs))).
Qed.

(** *** The deep update where nothing is merged *)

Lemma foldl_setitem (rec : addr -> addr -> store -> option store)
  (h : store) (dst : addr) (l : list (string * oval)) :
  forall c : gmap string oval,
    NoDup l.*1 ->
    (forall k x, (k, x) ∈ l -> both_dict x (c !! k) = None) ->
    foldl (update_item rec dst) (Some (<[dst := c]> h)) l
    = Some (<[dst := foldl (fun c kv => <[kv.1 := kv.2]> c) c l]> h).
Proof.
  induction l as [|[k x] l IH]; intros c Hnd Hl; [done|].
  rewrite fmap_cons in Hnd. apply NoDup_cons in Hnd as [Hkl Hnd].
  cbn [foldl].
  rewrite (update_item_assign rec dst _ c k x).
  - rewrite insert_insert_eq. apply IH; [done|].
    intros k' x' Hin. cbn [fst snd].
    rewrite lookup_insert_ne; [apply Hl; by right|].
    intros ->. apply Hkl. apply list_elem_of_fmap. by exists (k', x').
  - by rewrite lookup_insert_eq.
  - apply Hl. by left.
Qed.

Lemma foldl_insert_lookup (l : list (string * oval)) :
  NoDup l.*1 ->
  forall (c : gmap string oval) (k : string),
    foldl (fun c kv => <[kv.1 := kv.2]> c) c l !! k
    = match list_to_map (M := gmap string oval) l !! k with
      | Some x => Some x
      | None => c !! k
      end.
Proof.
  induction l as [|[k0 x0] l IH]; intros Hnd c k.
  - cbn [foldl list_to_map foldr]. by rewrite lookup_empty.
  - rewrite fmap_cons in Hnd. apply NoDup_cons in Hnd as [Hkl Hnd].
    cbn [foldl list_to_map foldr fst snd]. rewrite IH by done.
    destruct (decide (k0 = k)) as [->|Hne].
    + rewrite !lookup_insert_eq.
      by rewrite (not_elem_of_list_to_map_1 _ _ Hkl).
    + by rewrite !lookup_insert_ne by done.
Qed.

Lemma foldl_insert_items (c m : gmap string oval) :
  foldl (fun c kv => <[kv.1 := kv.2]> c) c (items m) = dict_update c m.
Proof.
  apply map_eq; intros k. rewrite foldl_insert_lookup.
  - rewrite dict_update_lookup.
    assert (E : list_to_map (M := gmap string oval) (items m) = m).
    { rewrite <- (list_to_map_to_list m) at 2.
      apply list_to_map_proper; [|apply items_perm].
      rewrite items_perm. apply NoDup_fst_map_to_list. }
    by rewrite E.
  - rewrite items_perm. apply NoDup_fst_map_to_list.
Qed.

Lemma recursive_update_flat (fuel : nat) (h : store) (dst src : addr)
  (cellD cellS : gmap string oval) :
  h !! dst = Some cellD -> h !! src = Some cellS ->
  (forall k sv dv, cellS !! k = Some sv -> cellD !! k = Some dv ->
     is_dict sv && is_dict dv = false) ->
  recursive_update items (S fuel) dst src h
  = Some (<[dst := dict_update cellD cellS]> h).
Proof.
  intros HD HS Hflat. cbn [recursive_update]. rewrite HS.
  rewrite <- (insert_id h dst cellD HD) at 1.
  rewrite foldl_setitem.
  - by rewrite foldl_insert_items.
  - rewrite items_perm. apply NoDup_fst_map_to_list.
  - intros k x Hin. rewrite items_perm in Hin.
    apply elem_of_map_to_list in Hin.
    destruct (cellD !! k) as [y|] eqn:E; [|by destruct x].
    apply both_dict_is_dict. by apply (Hflat k).
Qed.

Lemma recursive_update_empty_source (fuel : nat) (h : store)
  (dst src : addr) :
  h !! src = Some ∅ ->
  recursive_update items (S fuel) dst src h = Some h.
Proof.
  intros HS. cbn [recursive_update]. rewrite HS.
  assert (E : items ∅ = []).
  { apply Permutation_nil_r. rewrite items_perm. by rewrite map_to_list_empty. }
  by rewrite E.
Qed.
End refinement.

(** *** The stores of the examples *)

Lemma map_to_list_perm (m : gmap string oval) :
  map_to_list m ≡ₚ map_to_list m.
Proof. reflexivity. Qed.

Lemma example_heap_dst_tree :
  tree example_heap 1
    (dict [("a", VDict (dict [("x", VInt 0); ("y", VInt 2)])); ("b", VInt 7)])
    ({[1%positive]} ∪ {[3%positive]}).
Proof.
  replace (dict [("a", VDict (dict [("x", VInt 0); ("y", VInt 2)]));
                 ("b", VInt 7)])
    with (<["a" := VDict (omap scalar_val {[ "x" := OInt 0; "y" := OInt 2 ]})]>
            (omap scalar_val ({[ "b" := OInt 7 ]} : gmap string oval)))
    by (vm_compute; reflexivity).
  apply (tree_one_child example_heap 1 3 {[ "b" := OInt 7 ]} "a"
           (omap scalar_val {[ "x" := OInt 0; "y" := OInt 2 ]}) {[3%positive]}).
  - reflexivity.
  - apply map_Forall_to_list. vm_compute. repeat constructor.
  - apply tree_flat; [reflexivity|].
    apply map_Forall_to_list. vm_compute. repeat constructor.
  - rewrite elem_of_singleton. discriminate.
Qed.

Lemma example_heap_src_tree :
  tree example_heap 2 (dict [("a", VDict (dict [("x", VInt 1)]))])
    ({[2%positive]} ∪ {[4%positive]}).
Proof.
  replace (dict [("a", VDict (dict [("x", VInt 1)]))])
    with (<["a" := VDict (omap scalar_val {[ "x" := OInt 1 ]})]>
            (omap scalar_val (∅ : gmap string oval)))
    by (vm_compute; reflexivity).
  apply (tree_one_child example_heap 2 4 ∅ "a"
           (omap scalar_val {[ "x" := OInt 1 ]}) {[4%positive]}).
  - reflexivity.
  - apply map_Forall_empty.
  - apply tree_flat; [reflexivity|].
    apply map_Forall_to_list. vm_compute. repeat constructor.
  - rewrite elem_of_singleton. discriminate.
Qed.

Lemma example_heap_separate :
  ({[1%positive]} ∪ {[3%positive]} : gset addr)
  ## {[2%positive]} ∪ {[4%positive]}.
Proof.
  intros a Ha Hb.
  rewrite elem_of_union, !elem_of_singleton in Ha.
  rewrite elem_of_union, !elem_of_singleton in Hb.
  destruct Ha as [->| ->], Hb as [Hb|Hb]; discriminate.
Qed.

Example recursive_update_one_tolerance :
  match recursive_update map_to_list 2 1 4 example_params_heap with
  | Some h' =>
      match h' !! 3%positive with
      | Some ks =>
          ks !! "report" = Some (OBool true) /\
          ks !! "maximum_iterations" = Some (OInt 200) /\
          size ks = 7%nat
      | None => False
      end
  | None => False
  end.
Proof. vm_compute. split_and!; reflexivity. Qed.

(** One dictionary under two keys of the destination: what is merged into
    it through [a] is seen through [b]. *)
Example recursive_update_through_alias :
  recursive_update map_to_list 2 1 2
    {[ 1%positive := {[ "a" := ODict 3; "b" := ODict 3 ]};
       2%positive := {[ "a" := ODict 4 ]};
       3%positive := ∅;
       4%positive := {[ "x" := OInt 2 ]} ]}
  ≫= (fun h' => read 2 h' (ODict 1))
  = Some (VDict (dict [("a", VDict (dict [("x", VInt 2)]));
                       ("b", VDict (dict [("x", VInt 2)]))])).
Proof. vm_compute. reflexivity. Qed.

(** C1. [recursive_update] merges in place.  Where no dictionary object is
    reached twice from the destination and the source together, the call
    returns, and then the destination holds the deep merge of the two
    values: under every key of the source the recursive merge of the two
    values when the key is in the destination and both values are mappings,
    and the value of the source otherwise, the other keys being kept; the
    source and every object outside the destination are as before.  Merging
    [{a:{x:1}}] into a destination that has [{x:0,y:2}] under [a] makes
    that object [{x:1,y:2}] and changes nothing else, in any store. *)
Theorem recursive_update_spec :
  (forall (items : gmap string oval -> list (string * oval)) (h : store)
          (dst src : addr) (Vd Vs : gmap string val) (FD FS : gset addr)
          (fuel : nat),
     (forall m, items m ≡ₚ map_to_list m) ->
     tree h dst Vd FD -> tree h src Vs FS -> FD ## FS ->
     (val_size (VDict Vs) <= fuel)%nat ->
     exists h',
       recursive_update items fuel dst src h = Some h' /\
       tree h' dst (deep_merge Vd Vs) (FD ∪ FS) /\
       read (val_size (VDict (deep_merge Vd Vs))) h' (ODict dst)
       = Some (VDict (deep_merge Vd Vs)) /\
       tree h' src Vs FS /\
       (forall a, a ∉ FD -> h' !! a = h !! a)) /\
  (forall (dst src : gmap string val) (key : string),
     deep_merge dst src !! key =
       match src !! key with
       | None => dst !! key
       | Some v =>
           Some match v, dst !! key with
                | VDict s, Some (VDict d) => VDict (deep_merge d s)
                | _, _ => v
                end
       end) /\
  (forall (items : gmap string oval -> list (string * oval)) (h : store)
          (dst src s t : addr) (cellD : gmap string oval) (fuel : nat),
     (forall m, items m ≡ₚ map_to_list m) ->
     h !! src = Some {[ "a" := ODict s ]} ->
     h !! s = Some {[ "x" := OInt 1 ]} ->
     h !! dst = Some cellD ->
     cellD !! "a" = Some (ODict t) ->
     h !! t = Some {[ "x" := OInt 0; "y" := OInt 2 ]} ->
     (2 <= fuel)%nat ->
     recursive_update items fuel dst src h
     = Some (<[t := {[ "x" := OInt 1; "y" := OInt 2 ]}]> h)).
Proof.
  split_and!.
  - intros items h dst src Vd Vs FD FS fuel Hperm HD HS Hsep Hfuel.
    destruct (recursive_update_refines items Hperm fuel h dst src Vd Vs FD FS)
      as (h' & Hrun & Htree & Hframe); try done.
    exists h'. split_and!; try done.
    + by apply (tree_read_sized _ h' dst _ (FD ∪ FS)).
    + apply (tree_frame h); [done|]. intros b Hb. apply Hframe.
      intros HbD. by apply (Hsep b).
  - exact deep_merge_lookup.
  - intros items h dst src s t cellD fuel Hperm Hsrc Hs Hdst Ha Ht Hfuel.
    destruct fuel as [|fuel]; [lia|].
    assert (Hne : t <> dst).
    { intros ->. rewrite Hdst in Ht. injection Ht as ->. discriminate. }
    cbn [recursive_update]. rewrite Hsrc.
    assert (E : items {[ "a" := ODict s ]} = [("a", ODict s)]).
    { apply Permutation_singleton_r. rewrite Hperm.
      by rewrite map_to_list_singleton. }
    rewrite E. cbn [foldl].
    rewrite (update_item_merge _ dst h cellD "a" (ODict s) t s);
      [|done|by rewrite Ha].
    destruct fuel as [|fuel]; [lia|].
    rewrite (recursive_update_flat items Hperm fuel h t s _ _ Ht Hs).
    + unfold setitem. rewrite lookup_insert_ne by done. rewrite Hdst.
      rewrite (insert_id cellD) by done.
      rewrite insert_id by (by rewrite lookup_insert_ne).
      assert (Hxy : dict_update {[ "x" := OInt 0; "y" := OInt 2 ]}
                      {[ "x" := OInt 1 ]}
                    = ({[ "x" := OInt 1; "y" := OInt 2 ]} : gmap string oval))
        by (vm_compute; reflexivity).
      by rewrite Hxy.
    + intros k sv dv Hk _. apply lookup_singleton_Some in Hk as [_ <-].
      reflexivity.
Qed.

(** The merge of C1 on the destination [{a:{x:0,y:2}, b:7}] of the first
    store of the examples. *)
Lemma recursive_update_spec_witness :
  exists h',
    recursive_update map_to_list 3 1 2 example_heap = Some h' /\
    read 5 h' (ODict 1)
    = Some (VDict (dict [("a", VDict (dict [("x", VInt 1); ("y", VInt 2)]));
                         ("b", VInt 7)])).
Proof.
  destruct (proj1 recursive_update_spec map_to_list example_heap
              1%positive 2%positive _ _ _ _
              3%nat map_to_list_perm example_heap_dst_tree
              example_heap_src_tree example_heap_separate)
    as (h' & Hrun & _ & Hread & _).
  - vm_compute. lia.
  - exists h'. split; [exact Hrun|]. exact Hread.
Defined.

(** Where the destination holds one and the same dictionary under [a] and
    under [b], what is merged under [b] is seen under [a] as well: the
    destination reads [{a:{}, b:{}}], the source [{a:{x:1}, b:{y:2}}], and
    after the call the value under [a] is [{x:1,y:2}], where the merge of
    the two values has [{x:1}]. *)
Lemma recursive_update_shared_destination :
  read 2 example_shared_heap (ODict 1)
  = Some (VDict (dict [("a", VDict ∅); ("b", VDict ∅)])) /\
  read 2 example_shared_heap (ODict 2)
  = Some (VDict (dict [("a", VDict (dict [("x", VInt 1)]));
                       ("b", VDict (dict [("y", VInt 2)]))])) /\
  recursive_update map_to_list 2 1 2 example_shared_heap
  ≫= (fun h' => read 2 h' (ODict 1))
  = Some (VDict (dict [("a", VDict (dict [("x", VInt 1); ("y", VInt 2)]));
                       ("b", VDict (dict [("x", VInt 1); ("y", VInt 2)]))])) /\
  deep_merge (dict [("a", VDict ∅); ("b", VDict ∅)])
    (dict [("a", VDict (dict [("x", VInt 1)]));
           ("b", VDict (dict [("y", VInt 2)]))])
  = dict [("a", VDict (dict [("x", VInt 1)]));
          ("b", VDict (dict [("y", VInt 2)]))].
Proof. split_and!; vm_compute; reflexivity. Qed.

(** ** Default boundary conditions *)

(** C2. Called with any list of unknown names, the default [create_bcs]
    returns, without any effect, the mapping whose keys are exactly these
    names and whose every value is the empty list. *)
Theorem create_bcs_default (sys_comp : list string)
    (NS_namespace : gmap string val) :
  let bcs : gmap string val := gset_to_gmap (VList []) (list_to_set sys_comp) in
  create_bcs (<["sys_comp" := VList (VStr <$> sys_comp)]> NS_namespace)
    = returns (VDict bcs) /\
  dom bcs = list_to_set sys_comp /\
  (forall ui, ui ∈ sys_comp <-> bcs !! ui = Some (VList [])).
Proof.
  intros bcs. split; [|split].
  - unfold create_bcs, arg. rewrite lookup_insert_eq, as_names_strs.
    by rewrite dict_const_gset.
  - unfold bcs. apply dom_gset_to_gmap.
  - intros ui. unfold bcs. rewrite lookup_gset_to_gmap_Some.
    rewrite elem_of_list_to_set. tauto.
Qed.

(** ** Default hooks *)

Lemma default_hook_effects (h : hook_slot) (ctx : gmap string val) :
  effects (default_hook h ctx) = [].
Proof.
  destruct h; simpl; try reflexivity;
    unfold body_force, scalar_source, create_bcs, arg;
    repeat case_match; reflexivity.
Qed.

(** C3, as the code has it. The seven hooks [initialize],
    [velocity_tentative_hook], [pressure_hook], [scalar_hook],
    [start_timestep_hook], [temporal_hook] and [theend_hook] return nothing
    on every context, and [pre_solve_hook] returns an empty mapping; these
    eight are no-ops.  No default hook has an effect on state of the
    caller.  [body_force] returns the zero constant vector of the dimension
    of the mesh, and [scalar_source] the mapping of every scalar component
    to the zero constant, which is empty only when there is no scalar
    component. *)
Theorem default_hooks_behaviour :
  (forall (h : hook_slot) (ctx : gmap string val),
     h ∈ [Hinitialize; Hvelocity_tentative_hook; Hpressure_hook; Hscalar_hook;
          Hstart_timestep_hook; Htemporal_hook; Htheend_hook] ->
     default_hook h ctx = returns VNone) /\
  (forall ctx : gmap string val,
     default_hook Hpre_solve_hook ctx = returns (VDict ∅)) /\
  (forall (h : hook_slot) (ctx : gmap string val),
     h ∈ [Hinitialize; Hvelocity_tentative_hook; Hpressure_hook; Hscalar_hook;
          Hstart_timestep_hook; Htemporal_hook; Htheend_hook; Hpre_solve_hook] ->
     no_op (default_hook h ctx) = true) /\
  (forall (h : hook_slot) (ctx : gmap string val),
     effects (default_hook h ctx) = []) /\
  (forall (ctx : gmap string val) (dim : nat) (name : string),
     ctx !! "mesh" = Some (VMesh dim name) ->
     body_force ctx
     = returns (VObj "Constant" [VTuple (replicate dim (VInt 0))])) /\
  (forall (ctx : gmap string val) (names : list string),
     ctx !! "scalar_components" = Some (VList (VStr <$> names)) ->
     scalar_source ctx
     = returns (VDict (gset_to_gmap (VObj "Constant" [VInt 0])
                         (list_to_set names))) /\
     (no_op (scalar_source ctx) = true <-> names = [])).
Proof.
  split_and!.
  - intros h ctx Hh.
    repeat (apply elem_of_cons in Hh as [->|Hh]; [reflexivity|]).
    by apply elem_of_nil in Hh.
  - reflexivity.
  - intros h ctx Hh.
    repeat (apply elem_of_cons in Hh as [->|Hh]; [reflexivity|]).
    by apply elem_of_nil in Hh.
  - apply default_hook_effects.
  - intros ctx dim name Hmesh. unfold body_force, arg. by rewrite Hmesh.
  - intros ctx names Hsc.
    assert (E : scalar_source ctx
                = returns (VDict (gset_to_gmap (VObj "Constant" [VInt 0])
                                    (list_to_set names)))).
    { unfold scalar_source, arg. by rewrite Hsc, as_names_strs, dict_const_gset. }
    split; [exact E|]. rewrite E. unfold no_op, returns. cbn [effects result].
    rewrite bool_decide_eq_true, map_size_empty_iff.
    split.
    + intros Hempty. destruct names as [|n names]; [done|].
      assert (Hn : gset_to_gmap (VObj "Constant" [VInt 0])
                     (list_to_set (n :: names)) !! n
                   = Some (VObj "Constant" [VInt 0])).
      { apply lookup_gset_to_gmap_Some. split; [|done].
        apply elem_of_list_to_set. by left. }
      rewrite Hempty, lookup_empty in Hn. discriminate.
    + intros ->. apply gset_to_gmap_empty.
Qed.

(** C3 at [example_namespace]. *)
Lemma default_hooks_behaviour_witness :
  default_hook Htemporal_hook example_namespace = returns VNone /\
  default_hook Hpre_solve_hook example_namespace = returns (VDict ∅) /\
  body_force example_namespace
  = returns (VObj "Constant" [VTuple [VInt 0; VInt 0]]) /\
  scalar_source example_namespace
  = returns (VDict (gset_to_gmap (VObj "Constant" [VInt 0])
                      (list_to_set ["alfa"; "beta"]))).
Proof.
  destruct default_hooks_behaviour as (Hnone & Hpre & _ & _ & Hbf & Hss).
  split_and!.
  - apply Hnone. rewrite !elem_of_cons. tauto.
  - apply Hpre.
  - apply (Hbf example_namespace 2%nat "mesh"). reflexivity.
  - apply (Hss example_namespace ["alfa"; "beta"]). reflexivity.
Defined.

(** C3 as stated fails: on a namespace with a two-dimensional mesh the
    default [body_force] returns the constant [(0, 0)], and on two scalar
    components the default [scalar_source] returns a mapping with two
    entries; neither is nothing or an empty mapping. *)
Lemma default_hooks_not_all_no_op :
  body_force example_namespace
  = returns (VObj "Constant" [VTuple [VInt 0; VInt 0]]) /\
  no_op (default_hook Hbody_force example_namespace) = false /\
  no_op (default_hook Hscalar_source example_namespace) = false.
Proof. repeat split; vm_compute; reflexivity. Qed.

(** ** Keyword binding *)

Lemma tolerant_body (r : hook_result) :
  (forall p, result r <> Raise (MissingArgument p)) ->
  tolerant (fun _ => r) [].
Proof. intros Hr ctx extra _ _. split; [reflexivity | exact Hr]. Qed.

Lemma tolerant_arg (p : string) (req : list string)
    (k : val -> gmap string val -> hook_result) :
  p ∉ req ->
  (forall v, tolerant (k v) req) ->
  tolerant (arg p k) (p :: req).
Proof.
  intros Hp Hk ctx extra Hreq Hdisj.
  destruct (Hreq p) as [v Hv]; [by left|].
  assert (Hex : extra !! p = None) by (by eapply map_disjoint_Some_l).
  unfold arg.
  rewrite (lookup_union_Some_l ctx extra p v Hv), Hv.
  rewrite delete_union, (delete_id extra p Hex).
  apply Hk.
  - intros q Hq. rewrite lookup_delete_ne by (intros ->; done).
    apply Hreq. by right.
  - by apply map_disjoint_delete_l.
Qed.

Lemma strict_body (f : gmap string val -> hook_result) : strict f [].
Proof. intros ctx p Hp. by apply elem_of_nil in Hp. Qed.

Lemma strict_arg (p : string) (req : list string)
    (k : val -> gmap string val -> hook_result) :
  (forall v, strict (k v) req) -> strict (arg p k) (p :: req).
Proof.
  intros Hk ctx q Hq Hnone. unfold arg.
  destruct (ctx !! p) as [v|] eqn:Hv; [|by exists p].
  apply elem_of_cons in Hq as [->|Hq]; [congruence|].
  apply (Hk v _ q Hq).
  destruct (decide (p = q)) as [->|Hne]; [congruence|].
  by rewrite lookup_delete_ne.
Qed.

Ltac fresh_param :=
  rewrite ?elem_of_cons, elem_of_nil; intros H;
  repeat (destruct H as [H|H]; [discriminate H|]); exact H.

Ltac never_missing :=
  intros ?; repeat case_match; simpl; discriminate.

Ltac hook_tolerant :=
  repeat (apply tolerant_arg; [fresh_param | intros ?]);
  apply tolerant_body; never_missing.

(** [required] lists the parameters a hook cannot do without: when one of
    them is absent from the namespace, the call fails on its arguments. *)
Lemma hook_strict_all (pb : problem) (h : hook_slot) :
  strict (hook_of pb h) (required pb h).
Proof.
  destruct pb, h; simpl;
    unfold body_force, scalar_source, create_bcs, Lshape.create_bcs,
      Lshape.pre_solve_hook, Lshape.start_timestep_hook, Lshape.temporal_hook;
    repeat (apply strict_arg; intros ?); apply strict_body.
Qed.

(** C8. For every hook of the default problem and of the L-shape problem and
    every namespace that holds the parameters the hook names, adding further
    keyword entries is not an error (the call does not fail on its
    arguments) and leaves the effects and the result of the hook as they
    are. *)
Theorem hooks_ignore_unused_context (pb : problem) (h : hook_slot)
    (ctx extra : gmap string val) :
  (forall p, p ∈ required pb h -> is_Some (ctx !! p)) ->
  ctx ##ₘ extra ->
  hook_of pb h (ctx ∪ extra) = hook_of pb h ctx /\
  (forall p, result (hook_of pb h (ctx ∪ extra)) <> Raise (MissingArgument p)).
Proof.
  revert ctx extra. change (tolerant (hook_of pb h) (required pb h)).
  destruct pb, h; simpl;
    unfold body_force, scalar_source, create_bcs, Lshape.create_bcs,
      Lshape.pre_solve_hook, Lshape.start_timestep_hook, Lshape.temporal_hook,
      initialize, velocity_tentative_hook, pressure_hook, scalar_hook,
      start_timestep_hook, temporal_hook, pre_solve_hook, theend_hook;
    hook_tolerant.
Qed.

(** C8 on the end-of-timestep hook of the L-shape problem. *)
Lemma hooks_ignore_unused_context_witness :
  hook_of LshapeProblem Htemporal_hook
    (example_timestep_namespace ∪ example_extra)
  = HookResult [EPlot (VGlobal "p_") "Pressure";
                EAssign (VGlobal "uv")
                  (VObj "project" [VGlobal "u_"; VGlobal "Vv"]);
                EPlot (VGlobal "uv") "Velocity"]
      (Return VNone).
Proof.
  destruct (hooks_ignore_unused_context LshapeProblem Htemporal_hook
              example_timestep_namespace example_extra) as [Heq _].
  - intros p Hp. simpl in Hp.
    repeat (apply elem_of_cons in Hp as [->|Hp]; [vm_compute; eauto|]).
    by apply elem_of_nil in Hp.
  - apply (bool_decide_unpack _). vm_compute. exact I.
  - rewrite Heq. vm_compute. reflexivity.
Defined.

(** ** Printing on process 0 *)

Lemma silent_ranks (info : nat -> list string) (start n : nat) :
  (forall rank, (0 < rank)%nat -> info rank = []) ->
  (0 < start)%nat ->
  concat (info <$> seq start n) = [] /\
  filter (fun rank => info rank <> []) (seq start n) = [].
Proof.
  intros Hsilent. revert start.
  induction n as [|n IH]; intros start Hstart; [done|].
  cbn [seq]. rewrite fmap_cons. cbn [concat].
  destruct (IH (S start)) as [IHc IHf]; [lia|].
  rewrite IHc, (Hsilent start Hstart). split; [done|].
  rewrite filter_cons_False by (rewrite (Hsilent start Hstart); tauto).
  exact IHf.
Qed.

Lemma rank_gated (line : string) (info : nat -> list string) (size : nat) :
  info 0%nat = [line] ->
  (forall rank, (0 < rank)%nat -> info rank = []) ->
  (0 < size)%nat ->
  console info size = [line] /\ emitting_ranks info size = [0%nat].
Proof.
  intros H0 Hsilent Hsize. unfold console, emitting_ranks.
  destruct size as [|n]; [lia|]. cbn [seq]. rewrite fmap_cons. cbn [concat].
  destruct (silent_ranks info 1 n Hsilent) as [Hc Hf]; [lia|].
  rewrite Hc, H0. split; [done|].
  rewrite filter_cons_True by (rewrite H0; discriminate).
  by rewrite Hf.
Qed.

Lemma info_blue_line (rank : nat) (s : string) (check : bool) :
  info_blue rank s check =
    if (rank =? 0)%nat && check
    then [ESC +:+ "[1;37;34m" +:+ s +:+ ESC +:+ "[0m"] else [].
Proof. reflexivity. Qed.

Lemma info_green_line (rank : nat) (s : string) (check : bool) :
  info_green rank s check =
    if (rank =? 0)%nat && check
    then [ESC +:+ "[1;37;32m" +:+ s +:+ ESC +:+ "[0m"] else [].
Proof. reflexivity. Qed.

Lemma info_red_line (rank : nat) (s : string) (check : bool) :
  info_red rank s check =
    if (rank =? 0)%nat && check
    then [ESC +:+ "[1;37;31m" +:+ s +:+ ESC +:+ "[0m"] else [].
Proof. reflexivity. Qed.

Lemma gate_nonempty (rank : nat) (check : bool) (line : string) :
  (if (rank =? 0)%nat && check then [line] else []) <> []
  <-> rank = 0%nat /\ check = true.
Proof.
  destruct rank as [|rank], check; simpl; split;
    first [ by intros [? ?] | by intros ?; split | done ].
Qed.

(** C5. Each of [info_blue], [info_green] and [info_red] prints its line
    exactly when the calling process has rank 0 and [check] holds; so in a
    run of any positive number of processes that all make the call, rank 0
    is the only one that prints and the line appears once. *)
Theorem rank_gated_logging (s : string) (size : nat) :
  (0 < size)%nat ->
  (forall rank check,
     info_blue rank s check <> [] <-> rank = 0%nat /\ check = true) /\
  (forall rank check,
     info_green rank s check <> [] <-> rank = 0%nat /\ check = true) /\
  (forall rank check,
     info_red rank s check <> [] <-> rank = 0%nat /\ check = true) /\
  console (fun rank => info_blue rank s true) size
    = [ESC +:+ "[1;37;34m" +:+ s +:+ ESC +:+ "[0m"] /\
  console (fun rank => info_green rank s true) size
    = [ESC +:+ "[1;37;32m" +:+ s +:+ ESC +:+ "[0m"] /\
  console (fun rank => info_red rank s true) size
    = [ESC +:+ "[1;37;31m" +:+ s +:+ ESC +:+ "[0m"] /\
  emitting_ranks (fun rank => info_blue rank s true) size = [0%nat] /\
  emitting_ranks (fun rank => info_green rank s true) size = [0%nat] /\
  emitting_ranks (fun rank => info_red rank s true) size = [0%nat].
Proof.
  intros Hsize.
  assert (Hb := rank_gated (ESC +:+ "[1;37;34m" +:+ s +:+ ESC +:+ "[0m")
                  (fun rank => info_blue rank s true) size eq_refl).
  assert (Hg := rank_gated (ESC +:+ "[1;37;32m" +:+ s +:+ ESC +:+ "[0m")
                  (fun rank => info_green rank s true) size eq_refl).
  assert (Hr := rank_gated (ESC +:+ "[1;37;31m" +:+ s +:+ ESC +:+ "[0m")
                  (fun rank => info_red rank s true) size eq_refl).
  destruct Hb as [Hb1 Hb2]; [by intros [|rank] ?; [lia|] | done |].
  destruct Hg as [Hg1 Hg2]; [by intros [|rank] ?; [lia|] | done |].
  destruct Hr as [Hr1 Hr2]; [by intros [|rank] ?; [lia|] | done |].
  split_and!; try assumption; intros rank check.
  - rewrite info_blue_line. apply gate_nonempty.
  - rewrite info_green_line. apply gate_nonempty.
  - rewrite info_red_line. apply gate_nonempty.
Qed.

(** C5 on sixteen processes. *)
Lemma rank_gated_logging_witness :
  console (fun rank => info_red rank "Start" true) 16 = [percent_s RED "Start"] /\
  emitting_ranks (fun rank => info_blue rank "Start" true) 16 = [0%nat].
Proof.
  destruct (rank_gated_logging "Start" 16) as (_ & _ & _ & _ & _ & Hr & Hb & _);
    [lia|].
  split; [exact Hr | exact Hb].
Defined.

(** ** Memory bookkeeping *)





(** ** The memory probe *)

Lemma string_app_nil_r (s : string) : s +:+ "" = s.
Proof.
  induction s as [|c s IH]; [done|].
  change (String c (s +:+ "") = String c s). by rewrite IH.
Qed.

Lemma ps_command (rss : bool) (pid : string) :
  percent_s (if rss then "ps -o rss %s" else "ps -o vsz %s") pid
  = "ps -o " +:+ (if rss then "rss" else "vsz") +:+ " " +:+ pid.
Proof.
  destruct rss.
  - change ("ps -o rss " +:+ (pid +:+ "") = "ps -o rss " +:+ pid).
    by rewrite string_app_nil_r.
  - change ("ps -o vsz " +:+ (pid +:+ "") = "ps -o vsz " +:+ pid).
    by rewrite string_app_nil_r.
Qed.

(** C7, as the code has it. When the import from [fenicstools] fails, the
    probe runs [ps -o rss <pid>] (or [ps -o vsz <pid>] when [rss] is false)
    and evaluates the second token of its output: a decimal integer literal
    gives its value, and an output of fewer than two tokens raises
    [IndexError].  When the import succeeds, the imported accessor is the
    probe.  What a second token that is not a number gives is what [eval]
    makes of it. *)
Theorem getMemoryUsage_fallback_spec (eval_other : string -> outcome val)
    (getoutput : string -> string) (mypid : N) (rss : bool) :
  let cmd := "ps -o " +:+ (if rss then "rss" else "vsz") +:+ " "
             +:+ pretty mypid in
  let tokens := String.words (getoutput cmd) in
  (forall tok n,
     tokens !! 1%nat = Some tok -> int_literal tok = Some n ->
     getMemoryUsage None eval_other getoutput mypid rss = Return (VInt n)) /\
  (forall tok,
     tokens !! 1%nat = Some tok ->
     getMemoryUsage None eval_other getoutput mypid rss = eval eval_other tok) /\
  ((length tokens < 2)%nat ->
     getMemoryUsage None eval_other getoutput mypid rss = Raise IndexError) /\
  (forall fast,
     getMemoryUsage (Some fast) eval_other getoutput mypid rss = fast rss).
Proof.
  intros cmd tokens.
  assert (Hcmd : getMemoryUsage None eval_other getoutput mypid rss =
                 match tokens !! 1%nat with
                 | Some mymemory => eval eval_other mymemory
                 | None => Raise IndexError
                 end).
  { unfold tokens, cmd, getMemoryUsage, getMemoryUsage_fallback.
    rewrite <- (ps_command rss (pretty mypid)). by destruct rss. }
  split_and!.
  - intros tok n Htok Hn. rewrite Hcmd, Htok. unfold eval. by rewrite Hn.
  - intros tok Htok. by rewrite Hcmd, Htok.
  - intros Hlen. rewrite Hcmd.
    by rewrite (lookup_ge_None_2 tokens 1) by lia.
  - reflexivity.
Qed.

(** C7 on [example_shell]. *)
Lemma getMemoryUsage_fallback_spec_witness :
  getMemoryUsage None (fun _ => Raise SyntaxError) example_shell 4242 true
  = Return (VInt 51234).
Proof.
  apply (getMemoryUsage_fallback_spec (fun _ => Raise SyntaxError)
           example_shell 4242 true) with (tok := "51234"); reflexivity.
Defined.

(** C7 as stated fails: the output of [ps -o vsz 4242] on [example_shell]
    has the second token [None], which is not a number, and the probe
    returns [None] instead of raising. *)
Lemma getMemoryUsage_nonnumeric_returns :
  String.words (example_shell "ps -o vsz 4242") = ["VSZ"; "None"] /\
  int_literal "None" = None /\
  getMemoryUsage None (fun _ => Raise SyntaxError) example_shell 4242 false
  = Return VNone.
Proof. split_and!; vm_compute; reflexivity. Qed.

(** ** The parameter override of the L-shape problem *)

Lemma dict_update_frame {V} (dst src : gmap string V) (k : string) :
  src !! k = None -> dict_update dst src !! k = dst !! k.
Proof. intros H. by rewrite dict_update_lookup, H. Qed.

(** C10. Every value the L-shape problem overrides is a scalar and none of
    its keys is [krylov_solvers]; after the update, [krylov_solvers] in
    [NS_parameters] is the default sub-mapping, with its seven fields at
    their default values. *)
Theorem lshape_update_keeps_krylov_solvers :
  map_Forall (fun _ v => isinstance_dict v = false) Lshape.overrides /\
  Lshape.overrides !! "krylov_solvers" = None /\
  Lshape.NS_parameters !! "krylov_solvers"
    = Problems.NS_parameters !! "krylov_solvers" /\
  Lshape.NS_parameters !! "krylov_solvers" = Some (VDict krylov_solvers) /\
  size krylov_solvers = 7%nat /\
  krylov_solvers !! "monitor_convergence" = Some (VBool false) /\
  krylov_solvers !! "report" = Some (VBool false) /\
  krylov_solvers !! "error_on_nonconvergence" = Some (VBool false) /\
  krylov_solvers !! "nonzero_initial_guess" = Some (VBool true) /\
  krylov_solvers !! "maximum_iterations" = Some (VInt 200) /\
  krylov_solvers !! "relative_tolerance" = Some (VFloat 1e-8) /\
  krylov_solvers !! "absolute_tolerance" = Some (VFloat 1e-8).
Proof.
  assert (Hnone : Lshape.overrides !! "krylov_solvers" = None)
    by (vm_compute; reflexivity).
  split_and!.
  - apply map_Forall_to_list. vm_compute. repeat constructor.
  - exact Hnone.
  - unfold Lshape.NS_parameters. by apply dict_update_frame.
  - unfold Lshape.NS_parameters. rewrite dict_update_frame by exact Hnone.
    vm_compute. reflexivity.
  - vm_compute. reflexivity.
  - vm_compute. reflexivity.
  - vm_compute. reflexivity.
  - vm_compute. reflexivity.
  - vm_compute. reflexivity.
  - vm_compute. reflexivity.
  - vm_compute. reflexivity.
  - vm_compute. reflexivity.
Qed.

(** ** The walls of the L-shaped domain *)

(** C9. In [walls], [on_boundary] only guards the last disjunct: at a point
    with [x[0]] or [x[1]] near 0 the predicate holds whatever [on_boundary]
    is, and at any other point it holds exactly when both coordinates are
    above [0.25 - 5*DOLFIN_EPS] and [on_boundary] holds. *)
Theorem walls_on_boundary_scope (DOLFIN_EPS : float)
    (near : float -> float -> bool) (x : Lshape.point) :
  let corner := ((0.25 - 5 * DOLFIN_EPS <? x.1)%float &&
                 (0.25 - 5 * DOLFIN_EPS <? x.2)%float) in
  (near x.1 0%float = true \/ near x.2 0%float = true ->
     Lshape.walls DOLFIN_EPS near x true = true /\
     Lshape.walls DOLFIN_EPS near x false = true) /\
  (near x.1 0%float = false -> near x.2 0%float = false ->
     forall on_boundary,
       Lshape.walls DOLFIN_EPS near x on_boundary = corner && on_boundary) /\
  (forall on_boundary,
     Lshape.walls DOLFIN_EPS near x on_boundary
     = near x.1 0%float || near x.2 0%float || corner && on_boundary).
Proof.
  intros corner. unfold Lshape.walls. fold corner. split_and!.
  - intros [H|H]; rewrite H; [done|]. by destruct (near x.1 0%float).
  - intros H1 H2 on_boundary. by rewrite H1, H2.
  - reflexivity.
Qed.

(** C9 at the point [(0, 0.5)] of the left wall. *)
Lemma walls_on_boundary_scope_witness :
  Lshape.walls example_eps example_near (0, 0.5)%float true = true /\
  Lshape.walls example_eps example_near (0, 0.5)%float false = true.
Proof.
  apply (proj1 (walls_on_boundary_scope example_eps example_near (0, 0.5)%float)).
  left. vm_compute. reflexivity.
Defined.

(** ** The order of the floats *)

Lemma SFcompare_key (f1 f2 : spec_float) :
  SFcompare f1 f2 =
    match sf_key f1, sf_key f2 with
    | Some k1, Some k2 => Some (key_compare k1 k2)
    | _, _ => None
    end.
Proof.
  destruct f1 as [s1|s1| |s1 m1 e1], f2 as [s2|s2| |s2 m2 e2];
    try destruct s1; try destruct s2; try reflexivity.
  cbn [SFcompare sf_key]. f_equal. unfold key_compare. cbn [fst snd].
  change (-1 ?= -1) with Eq. cbv iota.
  rewrite (Z.compare_opp e1 e2), (Z.compare_antisym e1 e2).
  destruct (e1 ?= e2); reflexivity.
Qed.

Lemma key_compare_le_trans (k1 k2 k3 : Z * Z * Z) :
  key_compare k1 k2 <> Gt -> key_compare k2 k3 <> Gt -> key_compare k1 k3 <> Gt.
Proof.
  destruct k1 as [[a1 b1] c1], k2 as [[a2 b2] c2], k3 as [[a3 b3] c3].
  unfold key_compare; cbn [fst snd].
  destruct (Z.compare_spec a1 a2), (Z.compare_spec a2 a3),
    (Z.compare_spec a1 a3); try lia; try congruence;
  destruct (Z.compare_spec b1 b2), (Z.compare_spec b2 b3),
    (Z.compare_spec b1 b3); try lia; try congruence;
  destruct (Z.compare_spec c1 c2), (Z.compare_spec c2 c3),
    (Z.compare_spec c1 c3); try lia; try congruence.
Qed.

Lemma key_compare_lt_le_trans (k1 k2 k3 : Z * Z * Z) :
  key_compare k1 k2 = Lt -> key_compare k2 k3 <> Gt -> key_compare k1 k3 = Lt.
Proof.
  destruct k1 as [[a1 b1] c1], k2 as [[a2 b2] c2], k3 as [[a3 b3] c3].
  unfold key_compare; cbn [fst snd].
  destruct (Z.compare_spec a1 a2), (Z.compare_spec a2 a3),
    (Z.compare_spec a1 a3); try lia; try congruence;
  destruct (Z.compare_spec b1 b2), (Z.compare_spec b2 b3),
    (Z.compare_spec b1 b3); try lia; try congruence;
  destruct (Z.compare_spec c1 c2), (Z.compare_spec c2 c3),
    (Z.compare_spec c1 c3); try lia; try congruence.
Qed.

Lemma key_compare_antisym (k1 k2 : Z * Z * Z) :
  key_compare k2 k1 = CompOpp (key_compare k1 k2).
Proof.
  destruct k1 as [[a1 b1] c1], k2 as [[a2 b2] c2].
  unfold key_compare; cbn [fst snd].
  rewrite (Z.compare_antisym a1 a2), (Z.compare_antisym b1 b2),
    (Z.compare_antisym c1 c2).
  destruct (a1 ?= a2), (b1 ?= b2), (c1 ?= c2); reflexivity.
Qed.

Lemma float_leb_key (x y : float) :
  (x <=? y)%float = true <->
  exists k1 k2, sf_key (Prim2SF x) = Some k1 /\ sf_key (Prim2SF y) = Some k2 /\
    key_compare k1 k2 <> Gt.
Proof.
  rewrite FloatAxioms.leb_spec. unfold SFleb. rewrite SFcompare_key.
  destruct (sf_key (Prim2SF x)) as [k1|], (sf_key (Prim2SF y)) as [k2|];
    try (split; [discriminate|intros (? & ? & ? & ? & ?); discriminate]).
  split.
  - intros H. exists k1, k2. repeat split.
    destruct (key_compare k1 k2); congruence.
  - intros (? & ? & [= <-] & [= <-] & H).
    destruct (key_compare k1 k2); congruence.
Qed.

Lemma float_ltb_key (x y : float) :
  (x <? y)%float = true <->
  exists k1 k2, sf_key (Prim2SF x) = Some k1 /\ sf_key (Prim2SF y) = Some k2 /\
    key_compare k1 k2 = Lt.
Proof.
  rewrite FloatAxioms.ltb_spec. unfold SFltb. rewrite SFcompare_key.
  destruct (sf_key (Prim2SF x)) as [k1|], (sf_key (Prim2SF y)) as [k2|];
    try (split; [discriminate|intros (? & ? & ? & ? & ?); discriminate]).
  split.
  - intros H. exists k1, k2. repeat split.
    destruct (key_compare k1 k2); congruence.
  - intros (? & ? & [= <-] & [= <-] & H). by rewrite H.
Qed.

Lemma float_leb_trans (x y z : float) :
  (x <=? y)%float = true -> (y <=? z)%float = true -> (x <=? z)%float = true.
Proof.
  rewrite !float_leb_key.
  intros (k1 & k2 & H1 & H2 & H12) (k2' & k3 & H2' & H3 & H23).
  rewrite H2 in H2'. injection H2' as <-.
  exists k1, k3. repeat split; try assumption.
  by apply (key_compare_le_trans k1 k2 k3).
Qed.

Lemma float_ltb_leb_trans (x y z : float) :
  (x <? y)%float = true -> (y <=? z)%float = true -> (x <? z)%float = true.
Proof.
  rewrite !float_ltb_key, float_leb_key.
  intros (k1 & k2 & H1 & H2 & H12) (k2' & k3 & H2' & H3 & H23).
  rewrite H2 in H2'. injection H2' as <-.
  exists k1, k3. repeat split; try assumption.
  by apply (key_compare_lt_le_trans k1 k2 k3).
Qed.

Lemma float_leb_not_ltb (x y : float) :
  (x <=? y)%float = true -> (y <? x)%float = false.
Proof.
  rewrite float_leb_key. intros (k1 & k2 & H1 & H2 & H12).
  rewrite FloatAxioms.ltb_spec. unfold SFltb. rewrite SFcompare_key, H1, H2.
  rewrite key_compare_antisym. by destruct (key_compare k1 k2).
Qed.

(** ** The L-shaped mesh *)

Lemma forallb_false_elem {A} (f : A -> bool) (l : list A) :
  forallb f l = false -> exists x, x ∈ l /\ f x = false.
Proof.
  induction l as [|a l IH]; [discriminate|]. simpl.
  destruct (f a) eqn:E.
  - intros H. destruct (IH H) as (x & Hx & Hfx). exists x. split; [by right|done].
  - intros _. exists a. split; [by left|done].
Qed.

Lemma seqZ_forallb (f : Z -> bool) (m n i : Z) :
  forallb f (seqZ m n) = true -> m <= i < m + n -> f i = true.
Proof.
  intros H Hi. rewrite forallb_forall in H. apply H.
  apply list_elem_of_In, elem_of_seqZ. lia.
Qed.

(** The grid lines of the unit interval cut in 40 parts: the line 10 is at
    [0.25], the lines come in increasing order, those up to 10 are not above
    [0.25] and those from 10 on are not below. *)
Lemma grid_line_40_10 : grid_line 40 10 = 0.25%float.
Proof. reflexivity. Qed.

Lemma grid_line_40_low (i : Z) :
  0 <= i < 10 ->
  (grid_line 40 i <=? grid_line 40 9)%float = true /\
  (grid_line 40 (i + 1) <=? 0.25)%float = true.
Proof.
  intros Hi.
  assert (H : forallb (fun i => (grid_line 40 i <=? grid_line 40 9)%float
                               && (grid_line 40 (i + 1) <=? 0.25)%float)
                (seqZ 0 10) = true) by (vm_compute; reflexivity).
  apply (seqZ_forallb _ 0 10 i) in H; [|lia].
  by apply andb_true_iff in H.
Qed.

Lemma grid_line_40_high (i : Z) :
  10 <= i < 40 -> (0.25 <=? grid_line 40 i)%float = true.
Proof.
  intros Hi.
  assert (H : forallb (fun i => (0.25 <=? grid_line 40 i)%float)
                (seqZ 10 30) = true) by (vm_compute; reflexivity).
  apply (seqZ_forallb _ 10 30 i) in H; [done|lia].
Qed.

Lemma grid_line_40_step (i : Z) :
  0 <= i < 40 ->
  (grid_line 40 i <=? grid_line 40 i)%float = true /\
  (grid_line 40 i <=? grid_line 40 (i + 1))%float = true /\
  (grid_line 40 (i + 1) <=? grid_line 40 (i + 1))%float = true.
Proof.
  intros Hi.
  assert (H : forallb (fun i => (grid_line 40 i <=? grid_line 40 i)%float
                       && (grid_line 40 i <=? grid_line 40 (i + 1))%float
                       && (grid_line 40 (i + 1) <=? grid_line 40 (i + 1))%float)
                (seqZ 0 40) = true) by (vm_compute; reflexivity).
  apply (seqZ_forallb _ 0 40 i) in H; [|lia].
  apply andb_true_iff in H as [H H3]. apply andb_true_iff in H as [H1 H2].
  done.
Qed.

Section lshape_mesh.

(** The mesh interface of the framework, as far as [mesh] relies on it: a
    mesh has cells and a cell has points; a marker function gives every
    cell a value; [set_all] sets every value; [mark] gives the value to the
    cells all of whose tested points are inside the sub-domain and leaves
    the others; and [SubMesh] keeps the cells that carry the given value.
    Every cell of the 40 by 40 unit square mesh lies in a square of the
    grid, the lower left corner of which is one of its tested points, and
    the tested points of a cell are points of the cell.  The tolerance is
    positive and below the width of a grid square. *)
Context {Mesh MeshFunction cell : Type}.
Variable DOLFIN_EPS : float.
Variable UnitSquareMesh : Z -> Z -> Mesh.
Variable new_MeshFunction : string -> Mesh -> Z -> MeshFunction.
Variable set_all : MeshFunction -> N -> MeshFunction.
Variable mark :
  (Lshape.point -> bool -> bool) -> MeshFunction -> N -> MeshFunction.
Variable SubMesh : Mesh -> MeshFunction -> N -> Mesh.

Variable cells : Mesh -> list cell.
Variable covers : cell -> Lshape.point -> Prop.
Variable value : MeshFunction -> cell -> N.
Variable tested_points : cell -> list Lshape.point.
Variable on_boundary_of : cell -> Lshape.point -> bool.

Hypothesis set_all_value : forall mf v c, value (set_all mf v) c = v.
Hypothesis mark_value : forall inside mf v c,
  value (mark inside mf v) c =
    if forallb (fun x => inside x (on_boundary_of c x)) (tested_points c)
    then v else value mf c.
Hypothesis SubMesh_cells : forall m mf v,
  cells (SubMesh m mf v) = filter (fun c => value mf c = v) (cells m).
Hypothesis UnitSquareMesh_grid : forall c,
  c ∈ cells (UnitSquareMesh 40 40) ->
  exists i j, 0 <= i < 40 /\ 0 <= j < 40 /\
    (forall x, covers c x -> in_square 40 40 i j x) /\
    (forall x, x ∈ tested_points c -> covers c x) /\
    (grid_line 40 i, grid_line 40 j) ∈ tested_points c.
Hypothesis DOLFIN_EPS_small :
  (grid_line 40 9 <=? 0.25 - DOLFIN_EPS)%float = true /\
  (0.25 - DOLFIN_EPS <? 0.25)%float = true.

Lemma Submesh_inside_corner (x : Lshape.point) (on_boundary : bool) :
  Lshape.Submesh_inside DOLFIN_EPS x on_boundary = true
  <-> in_corner DOLFIN_EPS x.
Proof. unfold Lshape.Submesh_inside, in_corner. apply andb_true_iff. Qed.

Lemma forallb_inside_corner (c : cell) :
  forallb (fun x => Lshape.Submesh_inside DOLFIN_EPS x (on_boundary_of c x))
    (tested_points c) = true
  <-> Forall (in_corner DOLFIN_EPS) (tested_points c).
Proof.
  rewrite forallb_forall, Forall_forall.
  split; intros H x Hx.
  - apply (Submesh_inside_corner x (on_boundary_of c x)), H.
    by apply list_elem_of_In.
  - apply Submesh_inside_corner, H. by apply list_elem_of_In.
Qed.

(** A grid line that is not below [0.25 - DOLFIN_EPS] is one of the lines
    0 to 9, and one that is above is one of the lines 10 to 40. *)
Lemma grid_line_below (i : Z) (a : float) :
  0 <= i < 40 ->
  (grid_line 40 i <=? a)%float = true ->
  (0.25 - DOLFIN_EPS <? a)%float = false ->
  i < 10.
Proof.
  intros Hi Hle Hnot. destruct (decide (i < 10)) as [|Hge]; [done|].
  destruct DOLFIN_EPS_small as [_ Hlt].
  rewrite (float_ltb_leb_trans _ 0.25 a) in Hnot; [discriminate|done|].
  apply (float_leb_trans _ (grid_line 40 i)); [|done].
  apply grid_line_40_high. lia.
Qed.

Lemma grid_line_above (i : Z) :
  0 <= i < 40 ->
  (0.25 - DOLFIN_EPS <? grid_line 40 i)%float = true ->
  10 <= i.
Proof.
  intros Hi Hlt. destruct (decide (10 <= i)) as [|Hlow]; [done|].
  destruct DOLFIN_EPS_small as [Hle _].
  rewrite float_leb_not_ltb in Hlt; [discriminate|].
  apply (float_leb_trans _ (grid_line 40 9)); [|done].
  apply grid_line_40_low. lia.
Qed.

(** C4. [Submesh.inside] holds exactly at the points with both coordinates
    above [0.25 - DOLFIN_EPS]; the marker function that [mesh] builds has
    the value 1 on the cells all of whose tested points are such points and
    0 on the others; and the mesh returned consists of the cells of the
    unit square mesh that are marked 0, that is of those with a tested
    point outside that corner.  For [Nx = 40] and [Ny = 40] the mesh
    returned has no point with both coordinates above [0.25], and the
    cells left out have no point with a coordinate below [0.25]. *)
Theorem lshape_mesh_cells (Nx Ny : Z) :
  let mesh_ := UnitSquareMesh Nx Ny in
  let mf1 := mark (Lshape.Submesh_inside DOLFIN_EPS)
               (set_all (new_MeshFunction "size_t" mesh_ 2) 0%N) 1%N in
  let L := Lshape.mesh DOLFIN_EPS UnitSquareMesh new_MeshFunction set_all mark
             SubMesh in
  (forall x on_boundary,
     Lshape.Submesh_inside DOLFIN_EPS x on_boundary = true
     <-> in_corner DOLFIN_EPS x) /\
  (forall c,
     value mf1 c = 1%N <-> Forall (in_corner DOLFIN_EPS) (tested_points c)) /\
  (forall c,
     value mf1 c = 0%N <-> ~ Forall (in_corner DOLFIN_EPS) (tested_points c)) /\
  cells (L Nx Ny) = filter (fun c => value mf1 c = 0%N) (cells mesh_) /\
  (forall c,
     c ∈ cells (L Nx Ny) <->
     c ∈ cells mesh_ /\ ~ Forall (in_corner DOLFIN_EPS) (tested_points c)) /\
  (forall c x,
     c ∈ cells (L 40 40) -> covers c x ->
     (0.25 <? x.1)%float && (0.25 <? x.2)%float = false) /\
  (forall c x,
     c ∈ cells (UnitSquareMesh 40 40) -> c ∉ cells (L 40 40) -> covers c x ->
     (0.25 <=? x.1)%float && (0.25 <=? x.2)%float = true).
Proof.
  intros mesh_ mf1 L.
  assert (Hmarked : forall c,
    forallb (fun x => Lshape.Submesh_inside DOLFIN_EPS x (on_boundary_of c x))
      (tested_points c) = false
    <-> ~ Forall (in_corner DOLFIN_EPS) (tested_points c)).
  { intros c. rewrite <- forallb_inside_corner. by destruct (forallb _ _). }
  assert (H1 : forall c,
    value mf1 c = 1%N <-> Forall (in_corner DOLFIN_EPS) (tested_points c)).
  { intros c. unfold mf1. rewrite mark_value, set_all_value.
    rewrite <- forallb_inside_corner.
    destruct (forallb _ _); split; done. }
  assert (H0 : forall c,
    value mf1 c = 0%N <-> ~ Forall (in_corner DOLFIN_EPS) (tested_points c)).
  { intros c. unfold mf1. rewrite mark_value, set_all_value, <- Hmarked.
    destruct (forallb _ _); split; done. }
  assert (Hkept : forall c,
    c ∈ cells (L 40 40) <->
    c ∈ cells (UnitSquareMesh 40 40) /\
    forallb (fun x => Lshape.Submesh_inside DOLFIN_EPS x (on_boundary_of c x))
      (tested_points c) = false).
  { intros c. unfold L, Lshape.mesh. rewrite SubMesh_cells.
    rewrite list_elem_of_filter, mark_value, set_all_value.
    destruct (forallb _ _); split; intros [? ?]; done. }
  split_and!.
  - apply Submesh_inside_corner.
  - exact H1.
  - exact H0.
  - unfold L, Lshape.mesh. apply SubMesh_cells.
  - intros c. unfold L, Lshape.mesh. rewrite SubMesh_cells.
    rewrite list_elem_of_filter. fold mesh_ mf1. rewrite H0. tauto.
  - intros c x Hc Hx. apply Hkept in Hc as [Hc Hout].
    destruct (UnitSquareMesh_grid c Hc) as (i & j & Hi & Hj & Hsq & Htp & _).
    destruct (Hsq x Hx) as (_ & Hx1 & _ & Hx2).
    apply forallb_false_elem in Hout as (v & Hv & Hout).
    destruct (Hsq v (Htp v Hv)) as (Hv1 & _ & Hv2 & _).
    apply andb_false_iff in Hout as [Hout|Hout]; apply andb_false_iff.
    + left. apply float_leb_not_ltb.
      apply (float_leb_trans _ (grid_line 40 (i + 1))); [done|].
      apply grid_line_40_low.
      pose proof (grid_line_below i v.1 Hi Hv1 Hout). lia.
    + right. apply float_leb_not_ltb.
      apply (float_leb_trans _ (grid_line 40 (j + 1))); [done|].
      apply grid_line_40_low.
      pose proof (grid_line_below j v.2 Hj Hv2 Hout). lia.
  - intros c x Hc Hnot Hx.
    destruct (UnitSquareMesh_grid c Hc) as (i & j & Hi & Hj & Hsq & _ & Hll).
    destruct (Hsq x Hx) as (Hx1 & _ & Hx2 & _).
    assert (Hall : forallb (fun x => Lshape.Submesh_inside DOLFIN_EPS x
                                       (on_boundary_of c x))
                     (tested_points c) = true).
    { destruct (forallb _ _) eqn:E; [done|]. destruct Hnot. by apply Hkept. }
    rewrite forallb_forall in Hall.
    specialize (Hall _ (proj1 (list_elem_of_In _ _) Hll)).
    apply andb_true_iff in Hall as [Hi' Hj']. cbn [fst snd] in Hi', Hj'.
    apply andb_true_iff. split.
    + apply (float_leb_trans _ (grid_line 40 i)); [|done].
      apply grid_line_40_high. pose proof (grid_line_above i Hi Hi'). lia.
    + apply (float_leb_trans _ (grid_line 40 j)); [|done].
      apply grid_line_40_high. pose proof (grid_line_above j Hj Hj'). lia.
Qed.

End lshape_mesh.

(** The mesh model of the examples has the cells of the unit square mesh in
    the squares of the grid. *)
Lemma example_UnitSquareMesh_grid (c : example_cell) :
  c ∈ example_UnitSquareMesh 40 40 ->
  exists i j, 0 <= i < 40 /\ 0 <= j < 40 /\
    (forall x, example_covers c x -> in_square 40 40 i j x) /\
    (forall x, x ∈ c.2 -> example_covers c x) /\
    (grid_line 40 i, grid_line 40 j) ∈ c.2.
Proof.
  unfold example_UnitSquareMesh. intros Hc.
  apply list_elem_of_bind in Hc as (j & Hc & Hj).
  apply list_elem_of_bind in Hc as (i & Hc & Hi).
  apply elem_of_seqZ in Hi, Hj.
  exists i, j. split; [lia|]. split; [lia|].
  destruct (grid_line_40_step i) as (Hi1 & Hi2 & Hi3); [lia|].
  destruct (grid_line_40_step j) as (Hj1 & Hj2 & Hj3); [lia|].
  apply elem_of_cons in Hc as [->|Hc];
    [|apply elem_of_cons in Hc as [->|Hc]; [|by apply elem_of_nil in Hc]].
  - split; [by intros x Hx|]. split; [|by left].
    intros x Hx. cbn [fst snd] in Hx.
    repeat (apply elem_of_cons in Hx as [->|Hx]; [by repeat split|]).
    by apply elem_of_nil in Hx.
  - split; [by intros x Hx|]. split; [|by left].
    intros x Hx. cbn [fst snd] in Hx.
    repeat (apply elem_of_cons in Hx as [->|Hx]; [by repeat split|]).
    by apply elem_of_nil in Hx.
Qed.

(** At a resolution that has no grid line at [0.25] the cells kept reach
    into the corner: of the 3 by 3 mesh the cell at the origin is kept,
    and it has the vertex [(1/3, 1/3)]. *)
Example lshape_mesh_coarse :
  existsb (fun c : example_cell =>
             existsb (fun x => (0.25 <? x.1)%float && (0.25 <? x.2)%float) c.2)
    (example_mesh 3 3) = true.
Proof. vm_compute. reflexivity. Qed.

(** C4 on the mesh model: of the 3200 triangles of the 40 x 40 unit square
    mesh, [mesh] keeps 1400, and none of them has a point with both
    coordinates above [0.25]. *)
Lemma lshape_mesh_cells_witness :
  length (example_UnitSquareMesh 40 40) = 3200%nat /\
  length (example_mesh 40 40) = 1400%nat /\
  (forall c x,
     c ∈ example_mesh 40 40 -> example_covers c x ->
     (0.25 <? x.1)%float && (0.25 <? x.2)%float = false).
Proof.
  split; [vm_compute; reflexivity|].
  destruct (lshape_mesh_cells example_eps example_UnitSquareMesh
              example_new_MeshFunction example_set_all example_mark
              example_SubMesh (fun m => m) example_covers (fun mf c => mf c)
              (fun c => c.2) (fun _ _ => false)
              (fun _ _ _ => eq_refl) (fun _ _ _ _ => eq_refl)
              (fun _ _ _ => eq_refl) example_UnitSquareMesh_grid
              (conj eq_refl eq_refl) 40 40)
    as (_ & _ & _ & Hcells & _ & Hout & _).
  split; [|exact Hout].
  unfold example_mesh. rewrite Hcells. vm_compute. reflexivity.
Defined.

(** * Further properties *)

(** ** Deep update: laws *)

(** X1. A deep update never drops a key: where no dictionary object is
    reached twice from the destination and the source, the keys of the
    destination after the call are its keys before together with those of
    the source.  In any store, an empty source leaves the store as it is,
    and an empty destination takes over the slots of the source.  The deep
    merge of values has the same laws. *)
Theorem recursive_update_dom
  (items : gmap string oval -> list (string * oval)) (h : store)
  (dst src : addr) :
  (forall m, items m ≡ₚ map_to_list m) ->
  (forall (Vd Vs : gmap string val) (FD FS : gset addr) (fuel : nat),
     tree h dst Vd FD -> tree h src Vs FS -> FD ## FS ->
     (val_size (VDict Vs) <= fuel)%nat ->
     exists h' cellD cellS cell',
       recursive_update items fuel dst src h = Some h' /\
       h !! dst = Some cellD /\ h !! src = Some cellS /\
       h' !! dst = Some cell' /\
       dom cell' = dom cellD ∪ dom cellS) /\
  (forall fuel : nat,
     h !! src = Some ∅ ->
     recursive_update items (S fuel) dst src h = Some h) /\
  (forall (fuel : nat) (cellS : gmap string oval),
     h !! dst = Some ∅ -> h !! src = Some cellS ->
     recursive_update items (S fuel) dst src h = Some (<[dst := cellS]> h)) /\
  (forall Vd Vs : gmap string val,
     dom (deep_merge Vd Vs) = dom Vd ∪ dom Vs /\
     deep_merge Vd ∅ = Vd /\
     deep_merge ∅ Vs = Vs).
Proof.
  intros Hperm. split_and!; [| | |intros Vd Vs; split_and!].
  - intros Vd Vs FD FS fuel HD HS Hsep Hfuel.
    destruct (recursive_update_refines items Hperm fuel h dst src Vd Vs FD FS)
      as (h' & Hrun & Htree & Hframe); try done.
    destruct (tree_dom _ _ _ _ HD) as (cellD & HcD & HdD).
    destruct (tree_dom _ _ _ _ HS) as (cellS & HcS & HdS).
    destruct (tree_dom _ _ _ _ Htree) as (cell' & Hc' & Hd').
    exists h', cellD, cellS, cell'. split_and!; try done.
    by rewrite Hd', deep_merge_dom, HdD, HdS.
  - intros fuel HS. by apply recursive_update_empty_source.
  - intros fuel cellS HD HS.
    rewrite (recursive_update_flat items Hperm fuel h dst src ∅ cellS HD HS).
    + by rewrite dict_update_union, (right_id_L ∅ (∪)).
    + intros k sv dv _ Hk. by rewrite lookup_empty in Hk.
  - apply deep_merge_dom.
  - apply map_eq; intros k. by rewrite deep_merge_lookup, lookup_empty.
  - apply map_eq; intros k. rewrite deep_merge_lookup, lookup_empty.
    by destruct (Vs !! k) as [[]|].
Qed.

(** X1 on the first store of the examples. *)
Lemma recursive_update_dom_witness :
  exists h' cell',
    recursive_update map_to_list 3 1 2 example_heap = Some h' /\
    h' !! 1%positive = Some cell' /\
    dom cell' = dom ({[ "a" := ODict 3; "b" := OInt 7 ]} : gmap string oval)
                ∪ dom ({[ "a" := ODict 4 ]} : gmap string oval).
Proof.
  destruct (proj1 (recursive_update_dom map_to_list example_heap
                     1%positive 2%positive map_to_list_perm)
              _ _ _ _ 3%nat example_heap_dst_tree example_heap_src_tree
              example_heap_separate)
    as (h' & cellD & cellS & cell' & Hrun & HD & HS & Hc' & Hdom).
  - vm_compute. lia.
  - exists h', cell'. split; [exact Hrun|]. split; [exact Hc'|].
    injection HD as <-. injection HS as <-. exact Hdom.
Defined.

(** X3. Where no key carries a dictionary on both sides, the deep update
    is the shallow update [dst.update(src)] of the destination object,
    which is the overriding union of the two, in any store; so the L-shape
    problem, whose overrides are scalars, gets the same parameters from
    either.  The deep merge of values is the shallow update in the same
    case. *)
Theorem recursive_update_shallow
  (items : gmap string oval -> list (string * oval)) (h : store)
  (dst src : addr) (cellD cellS : gmap string oval) (fuel : nat) :
  (forall m, items m ≡ₚ map_to_list m) ->
  h !! dst = Some cellD -> h !! src = Some cellS ->
  (forall k sv dv, cellS !! k = Some sv -> cellD !! k = Some dv ->
     is_dict sv && is_dict dv = false) ->
  recursive_update items (S fuel) dst src h
  = Some (<[dst := dict_update cellD cellS]> h) /\
  dict_update cellD cellS = cellS ∪ cellD /\
  (forall Vd Vs : gmap string val,
     (forall k sv dv, Vs !! k = Some sv -> Vd !! k = Some dv ->
        isinstance_dict sv && isinstance_dict dv = false) ->
     deep_merge Vd Vs = dict_update Vd Vs /\
     dict_update Vd Vs = Vs ∪ Vd).
Proof.
  intros Hperm HD HS Hflat. split_and!.
  - by apply recursive_update_flat.
  - apply dict_update_union.
  - intros Vd Vs HV. split; [|apply dict_update_union].
    apply map_eq; intros k.
    rewrite deep_merge_lookup, dict_update_lookup.
    destruct (Vs !! k) as [sv|] eqn:Hs; [|done].
    destruct (Vd !! k) as [dv|] eqn:Hd; [|by destruct sv].
    specialize (HV k sv dv Hs Hd).
    destruct sv; try done. destruct dv; try done.
Qed.

Lemma flat_source (cellD cellS : gmap string oval) :
  map_Forall (fun _ x => is_dict x = false) cellS ->
  forall k sv dv, cellS !! k = Some sv -> cellD !! k = Some dv ->
    is_dict sv && is_dict dv = false.
Proof. intros H k sv dv Hs _. by rewrite (H k sv Hs). Qed.

Lemma lshape_overrides_flat :
  map_Forall (fun _ x => is_dict x = false) (omap oval_of Lshape.overrides).
Proof. apply map_Forall_to_list. vm_compute. repeat constructor. Qed.

(** X3 on the parameters of the L-shape problem. *)
Lemma recursive_update_shallow_witness :
  recursive_update map_to_list 1 1 2 example_params_heap
  ≫= (fun h' => read 2 h' (ODict 1))
  = Some (VDict Lshape.NS_parameters).
Proof.
  rewrite (proj1 (recursive_update_shallow map_to_list example_params_heap
                    1%positive 2%positive
                    (<["krylov_solvers" := ODict 3]>
                       (omap oval_of Problems.NS_parameters))
                    (omap oval_of Lshape.overrides) 0%nat
                    map_to_list_perm eq_refl eq_refl
                    (flat_source _ _ lshape_overrides_flat))).
  vm_compute. reflexivity.
Defined.

(** ** The memory probe: decimal output *)

Lemma is_nat_pretty_N_char (m : N) :
  (m < 10)%N -> Ascii.is_nat (pretty_N_char m) = Some (N.to_nat m).
Proof.
  intros Hm.
  assert (m = 0 \/ m = 1 \/ m = 2 \/ m = 3 \/ m = 4 \/ m = 5 \/ m = 6
          \/ m = 7 \/ m = 8 \/ m = 9)%N as H by lia.
  repeat (destruct H as [->|H]; [reflexivity|]). by subst.
Qed.

Lemma digits_value_pretty_N_go (x : N) :
  forall (s : string) (acc : Z),
    exists k : Z, 0 <= k /\
      digits_value acc (pretty_N_go x s)
      = digits_value (acc * 10 ^ k + Z.of_N x) s.
Proof.
  induction (N.lt_wf_0 x) as [x _ IH]; intros s acc.
  destruct (decide (x = 0%N)) as [->|Hx].
  { exists 0. rewrite pretty_N_go_0. split; [lia|]. f_equal. lia. }
  rewrite pretty_N_go_step by lia.
  destruct (IH (x `div` 10)%N) with
    (s := String (pretty_N_char (x `mod` 10)) s) (acc := acc)
    as (k & Hk & Heq).
  { apply N.div_lt; lia. }
  exists (k + 1). split; [lia|].
  rewrite Heq. cbn [digits_value].
  rewrite is_nat_pretty_N_char by (apply N.mod_lt; lia).
  f_equal. rewrite N_nat_Z, N2Z.inj_div, N2Z.inj_mod.
  rewrite Z.pow_add_r by lia.
  change (Z.of_N 10) with 10.
  pose proof (Z.div_mod (Z.of_N x) 10). lia.
Qed.

Lemma pretty_N_go_leading (x : N) :
  forall s : string,
    (0 < x)%N ->
    exists c s', pretty_N_go x s = String c s' /\ c <> "0"%char.
Proof.
  induction (N.lt_wf_0 x) as [x _ IH]; intros s Hx.
  rewrite pretty_N_go_step by done.
  destruct (decide (x `div` 10 = 0)%N) as [Hd|Hd].
  - rewrite Hd, pretty_N_go_0. eexists _, _. split; [reflexivity|].
    assert (x < 10)%N by (apply N.div_small_iff in Hd; lia).
    rewrite N.mod_small by done.
    assert (x = 1 \/ x = 2 \/ x = 3 \/ x = 4 \/ x = 5 \/ x = 6
            \/ x = 7 \/ x = 8 \/ x = 9)%N as H' by lia.
    repeat (destruct H' as [->|H']; [discriminate|]). by subst.
  - apply IH; [apply N.div_lt; lia | by apply N.neq_0_lt_0].
Qed.

Lemma int_literal_nonzero_lead (c : ascii) (s : string) :
  c <> "0"%char -> int_literal (String c s) = digits_value 0 (String c s).
Proof.
  intros Hc. destruct c as [[] [] [] [] [] [] [] []]; try reflexivity.
  by destruct Hc.
Qed.

Lemma int_literal_pretty (n : N) : int_literal (pretty n) = Some (Z.of_N n).
Proof.
  unfold pretty, pretty_N. case_decide as Hn; [by subst|].
  destruct (pretty_N_go_leading n "") as (c & s' & Hgo & Hc); [lia|].
  rewrite Hgo, int_literal_nonzero_lead by done. rewrite <- Hgo.
  destruct (digits_value_pretty_N_go n "" 0) as (k & _ & ->).
  cbn [digits_value]. f_equal.
Qed.

(** X4. Reading back what [ps] prints: when the second token of the
    output of [ps] is the decimal writing of a number [n], as it is for a
    running process, the fallback probe returns exactly [n], for the
    resident as for the virtual size. *)
Theorem getMemoryUsage_reads_decimal (eval_other : string -> outcome val)
    (getoutput : string -> string) (mypid : N) (rss : bool) (n : N) :
  String.words
    (getoutput ("ps -o " +:+ (if rss then "rss" else "vsz") +:+ " "
                +:+ pretty mypid)) !! 1%nat = Some (pretty n) ->
  getMemoryUsage None eval_other getoutput mypid rss = Return (VInt (Z.of_N n)).
Proof.
  intros Htok. unfold getMemoryUsage, getMemoryUsage_fallback.
  replace (if rss then percent_s "ps -o rss %s" (pretty mypid)
           else percent_s "ps -o vsz %s" (pretty mypid))
    with (percent_s (if rss then "ps -o rss %s" else "ps -o vsz %s")
            (pretty mypid)) by (by destruct rss).
  rewrite ps_command, Htok. unfold eval. by rewrite int_literal_pretty.
Qed.

(** X4 on a shell that prints the size 51234 for the process 4242. *)
Lemma getMemoryUsage_reads_decimal_witness :
  getMemoryUsage None (fun _ => Raise NameError) example_shell 4242 true
  = Return (VInt 51234).
Proof.
  apply (getMemoryUsage_reads_decimal (fun _ => Raise NameError)
           example_shell 4242 true 51234).
  reflexivity.
Defined.

(** ** Memory bookkeeping over a run *)

Lemma probe_states_telescope (rank : nat)
    (probes : list (string * bool * list Z * list Z)) :
  forall self : OasisMemoryUsage,
    foldr Z.add 0 ((fun st => memory st - prev st) <$> probe_states self rank probes)
    = memory (List.last (probe_states self rank probes) self) - memory self /\
    foldr Z.add 0
      ((fun st => memory_vm st - prev_vm st) <$> probe_states self rank probes)
    = memory_vm (List.last (probe_states self rank probes) self)
      - memory_vm self.
Proof.
  induction probes as [|[[[s verbose] rss] vsz] rest IH]; intros self.
  { simpl. lia. }
  cbn [probe_states]. rewrite !fmap_cons. cbn [foldr].
  set (self' := (OasisMemoryUsage_call self s verbose rank rss vsz).1).
  destruct (IH self') as [IHm IHv]. rewrite IHm, IHv.
  assert (Hlast : List.last (self' :: probe_states self' rank rest) self
                  = List.last (probe_states self' rank rest) self').
  { destruct (probe_states self' rank rest) as [|st sts] eqn:E; [done|].
    change (List.last (st :: sts) self = List.last (st :: sts) self').
    clear. revert st. induction sts as [|st' sts IHs]; intros st; [done|].
    apply (IHs st'). }
  rewrite Hlast.
  assert (Hp : prev self' = memory self) by reflexivity.
  assert (Hpv : prev_vm self' = memory_vm self) by reflexivity.
  lia.
Qed.

(** X5. The differences add up: over any sequence of probes of one
    [OasisMemoryUsage] object, the deltas of resident (and of virtual)
    memory of the probes sum to the last cumulative value minus the value
    the object held before; counted from the construction of the object,
    where both counters are 0, they sum to the current cumulative value. *)
Theorem memory_deltas_add_up (self : OasisMemoryUsage) (rank : nat)
    (s0 : string) (rss0 vsz0 : list Z)
    (probes : list (string * bool * list Z * list Z)) :
  let states := probe_states self rank probes in
  let born := MkOasisMemoryUsage 0 0 0 0 in
  let run := probe_states born rank ((s0, false, rss0, vsz0) :: probes) in
  foldr Z.add 0 ((fun st => memory st - prev st) <$> states)
    = memory (List.last states self) - memory self /\
  foldr Z.add 0 ((fun st => memory_vm st - prev_vm st) <$> states)
    = memory_vm (List.last states self) - memory_vm self /\
  List.head run = Some (OasisMemoryUsage_init s0 rank rss0 vsz0).1 /\
  foldr Z.add 0 ((fun st => memory st - prev st) <$> run)
    = memory (List.last run born).
Proof.
  intros states born run.
  destruct (probe_states_telescope rank probes self) as [Hm Hv].
  destruct (probe_states_telescope rank ((s0, false, rss0, vsz0) :: probes) born)
    as [Hm0 _].
  split_and!; [exact Hm | exact Hv | reflexivity |].
  unfold run. rewrite Hm0. simpl. lia.
Qed.

Lemma string_length_app (s1 s2 : string) :
  String.length (s1 +:+ s2) = (String.length s1 + String.length s2)%nat.
Proof.
  induction s1 as [|c s1 IH]; [done|].
  change (S (String.length (s1 +:+ s2))
          = S (String.length s1 + String.length s2)). by rewrite IH.
Qed.

Lemma string_length_spaces (n : nat) : String.length (spaces n) = n.
Proof. induction n as [|n IH]; simpl; [done|]. by rewrite IH. Qed.

Lemma string_length_ljust (w : nat) (s : string) :
  String.length (ljust w s) = (w `max` String.length s)%nat.
Proof. unfold ljust. rewrite string_length_app, string_length_spaces. lia. Qed.

Lemma string_length_rjust (w : nat) (s : string) :
  String.length (rjust w s) = (w `max` String.length s)%nat.
Proof. unfold rjust. rewrite string_length_app, string_length_spaces. lia. Qed.

(** X6. The memory line never cuts its entries: its length is the sum of
    the widths of the five columns, each at least its nominal width (26
    for the label, 10 for each number) and as wide as its entry when that
    is longer, plus 17 characters of separators and units; so the line
    has at least 83 characters, and exactly 83 when every entry fits. *)
Theorem memory_line_length (s : string) (d m d_vm m_vm : Z) :
  String.length (memory_line s d m d_vm m_vm)
  = (26 `max` String.length s + 10 `max` String.length (pretty d)
     + 10 `max` String.length (pretty m)
     + 10 `max` String.length (pretty d_vm)
     + 10 `max` String.length (pretty m_vm) + 17)%nat /\
  (83 <= String.length (memory_line s d m d_vm m_vm))%nat.
Proof.
  assert (H : String.length (memory_line s d m d_vm m_vm)
    = (26 `max` String.length s + 10 `max` String.length (pretty d)
       + 10 `max` String.length (pretty m)
       + 10 `max` String.length (pretty d_vm)
       + 10 `max` String.length (pretty m_vm) + 17)%nat).
  { unfold memory_line.
    rewrite !string_length_app, string_length_ljust, !string_length_rjust.
    simpl String.length. lia. }
  split; [exact H | rewrite H; lia].
Qed.

(** ** Time series files *)

Lemma add_function_to_tstepfiles_insert (name_of : val -> string)
    (function : val) (newfolder : string) (tstepfiles : gmap string XDMFFile)
    (tstep : Z) :
  add_function_to_tstepfiles name_of function newfolder tstepfiles tstep
  = <[name_of function :=
        MkXDMFFile
          (path_join (path_join newfolder "Timeseries")
             (name_of function +:+ "_from_tstep_" +:+ pretty tstep +:+ ".xdmf"))
          (Some function) false]> tstepfiles.
Proof.
  unfold add_function_to_tstepfiles.
  apply map_eq; intros k. destruct (decide (name_of function = k)) as [<-|Hk].
  - by rewrite !lookup_alter_eq, !lookup_insert_eq.
  - by rewrite !lookup_alter_ne, !lookup_insert_ne.
Qed.

(** X7. Registering a function for the time series writes one entry, under
    the name of the function: a file that holds the function and has the
    rewriting of the mesh switched off.  Every other entry of the
    dictionary is kept, and an earlier entry under the same name is
    replaced: registering again, from any time step and folder, leaves no
    trace of the first registration. *)
Theorem add_function_to_tstepfiles_entry (name_of : val -> string)
    (function : val) (newfolder newfolder' : string)
    (tstepfiles : gmap string XDMFFile) (tstep tstep' : Z) :
  let files :=
    add_function_to_tstepfiles name_of function newfolder tstepfiles tstep in
  (exists filename,
     files !! name_of function
     = Some (MkXDMFFile filename (Some function) false)) /\
  (forall k, k <> name_of function -> files !! k = tstepfiles !! k) /\
  dom files = {[name_of function]} ∪ dom tstepfiles /\
  add_function_to_tstepfiles name_of function newfolder' files tstep'
  = add_function_to_tstepfiles name_of function newfolder' tstepfiles tstep'.
Proof.
  intros files. unfold files.
  rewrite !add_function_to_tstepfiles_insert. split_and!.
  - eexists. apply lookup_insert_eq.
  - intros k Hk. by apply lookup_insert_ne.
  - apply dom_insert_L.
  - apply insert_insert_eq.
Qed.

Lemma string_app_inv_tail (s1 s2 x : string) :
  s1 +:+ x = s2 +:+ x -> s1 = s2.
Proof.
  revert s2. induction s1 as [|c s1 IH]; intros [|c' s2] H; [done|..].
  - apply (f_equal String.length) in H.
    rewrite !string_length_app in H. simpl in H. lia.
  - apply (f_equal String.length) in H.
    rewrite !string_length_app in H. simpl in H. lia.
  - change (String c (s1 +:+ x) = String c' (s2 +:+ x)) in H.
    injection H as -> H. f_equal. by apply IH.
Qed.

Lemma startswith_slash_app (a b : string) :
  a <> "" -> startswith_slash (a +:+ b) = startswith_slash a.
Proof. by destruct a. Qed.

Lemma path_join_inj (a b1 b2 : string) :
  startswith_slash b1 = startswith_slash b2 ->
  path_join a b1 = path_join a b2 -> b1 = b2.
Proof.
  unfold path_join. intros ->.
  destruct (startswith_slash b2); [done|].
  destruct (String.eqb a "" || endswith_slash a).
  - apply (inj (String.app a)).
  - intros H. by apply (inj (String.app a)), (inj (String.app "/")) in H.
Qed.

Lemma endswith_slash_app (a b : string) :
  b <> "" -> endswith_slash (a +:+ b) = endswith_slash b.
Proof.
  intros Hb. induction a as [|c a IH]; [done|].
  change (endswith_slash (String c (a +:+ b)) = endswith_slash b).
  cbn [endswith_slash]. destruct (a +:+ b) as [|c' s] eqn:E; [|exact IH].
  destruct a, b; done.
Qed.

Lemma path_join_Timeseries (newfolder : string) :
  endswith_slash (path_join newfolder "Timeseries") = false /\
  String.eqb (path_join newfolder "Timeseries") "" = false.
Proof.
  unfold path_join. cbn [startswith_slash].
  destruct (String.eqb newfolder "" || endswith_slash newfolder); split.
  - by rewrite endswith_slash_app.
  - apply String.eqb_neq. by destruct newfolder.
  - by rewrite (endswith_slash_app newfolder ("/" +:+ "Timeseries")).
  - apply String.eqb_neq. by destruct newfolder.
Qed.

Lemma string_app_assoc (a b c : string) : (a +:+ b) +:+ c = a +:+ (b +:+ c).
Proof.
  induction a as [|x a IH]; [done|].
  change (String x ((a +:+ b) +:+ c) = String x (a +:+ (b +:+ c))).
  by rewrite IH.
Qed.

(** X8. Where the time series file goes. For a function whose name does
    not start with a slash, the file is
    [<newfolder>/Timeseries/<name>_from_tstep_<tstep>.xdmf] (no separator
    is added after an empty folder or one that ends with a slash); a name
    that starts with a slash is taken as an absolute path, and the file is
    then outside the folder.  In either case, for one function and folder,
    different time steps give different files. *)
Theorem add_function_to_tstepfiles_filename (name_of : val -> string)
    (function : val) (newfolder : string)
    (tstepfiles tstepfiles' : gmap string XDMFFile) (tstep tstep' : Z) :
  let name := name_of function in
  let filename_at files t :=
    xdmf_filename <$>
      add_function_to_tstepfiles name_of function newfolder files t !! name in
  (startswith_slash name = false ->
     filename_at tstepfiles tstep
     = Some (newfolder
             +:+ (if String.eqb newfolder "" || endswith_slash newfolder
                  then "" else "/")
             +:+ "Timeseries/" +:+ name +:+ "_from_tstep_" +:+ pretty tstep
             +:+ ".xdmf")) /\
  (startswith_slash name = true ->
     filename_at tstepfiles tstep
     = Some (name +:+ "_from_tstep_" +:+ pretty tstep +:+ ".xdmf")) /\
  (filename_at tstepfiles tstep = filename_at tstepfiles' tstep' ->
     tstep = tstep').
Proof.
  intros name filename_at. unfold filename_at.
  rewrite !add_function_to_tstepfiles_insert, !lookup_insert_eq. simpl.
  fold name.
  assert (Hstart : forall t,
    startswith_slash (name +:+ "_from_tstep_" +:+ pretty (t : Z) +:+ ".xdmf")
    = startswith_slash name).
  { intros t. by destruct name. }
  destruct (path_join_Timeseries newfolder) as [Hend Hne].
  split_and!.
  - intros Hrel. f_equal. unfold path_join at 1.
    rewrite Hstart, Hrel, Hne, Hend. simpl.
    unfold path_join. cbn [startswith_slash].
    destruct (String.eqb newfolder "" || endswith_slash newfolder).
    + by rewrite string_app_assoc.
    + by rewrite !string_app_assoc.
  - intros Habs. f_equal. unfold path_join at 1. by rewrite Hstart, Habs.
  - intros H. injection H as H.
    apply path_join_inj in H; [|by rewrite !Hstart].
    apply (inj (String.app name)), (inj (String.app "_from_tstep_")) in H.
    apply string_app_inv_tail in H. by apply (inj (pretty (A := Z))) in H.
Qed.

(** ** The hooks of the L-shape problem *)

Lemma arg_bind (p : string) (k : val -> gmap string val -> hook_result)
    (ctx : gmap string val) (v : val) :
  ctx !! p = Some v -> arg p k ctx = k v (delete p ctx).
Proof. intros H. unfold arg. by rewrite H. Qed.

Ltac bind_arg H :=
  erewrite arg_bind by (rewrite ?lookup_delete_ne by discriminate; exact H).

Lemma lshape_create_bcs_bound (ctx : gmap string val) (V Q : val)
    (names : list string) :
  ctx !! "V" = Some V -> ctx !! "Q" = Some Q ->
  ctx !! "sys_comp" = Some (VList (VStr <$> names)) ->
  Lshape.create_bcs ctx
  = returns (VDict
      (<["p" := VList [VObj "DirichletBC" [Q; Lshape.p_in; VFun "inlet"];
                       VObj "DirichletBC" [Q; VFloat 0; VFun "outlet"]]]>
      (<["u1" := VList [VObj "DirichletBC" [V; VFloat 0; VFun "walls"]]]>
      (<["u0" := VList [VObj "DirichletBC" [V; VFloat 0; VFun "walls"]]]>
         (gset_to_gmap (VList []) (list_to_set names)))))).
Proof.
  intros HV HQ Hsys. unfold Lshape.create_bcs.
  bind_arg HV. bind_arg HQ. bind_arg Hsys. cbv beta iota.
  by rewrite as_names_strs, dict_const_gset.
Qed.

(** X9. The boundary conditions of the L-shape problem, for any list of
    unknowns: the result has an entry for every unknown and, whether they
    are among the unknowns or not, for [u0], [u1] and [p]; [u0] and [u1]
    carry the one no-slip condition on the walls, [p] the inlet pressure
    followed by the zero outlet pressure, and every other unknown has no
    condition. The call has no effect. *)
Theorem lshape_create_bcs_spec (ctx : gmap string val) (V Q : val)
    (names : list string) :
  ctx !! "V" = Some V -> ctx !! "Q" = Some Q ->
  ctx !! "sys_comp" = Some (VList (VStr <$> names)) ->
  exists bcs : gmap string val,
    Lshape.create_bcs ctx = returns (VDict bcs) /\
    dom bcs = list_to_set names ∪ {["u0"; "u1"; "p"]} /\
    bcs !! "u0" = Some (VList [VObj "DirichletBC" [V; VFloat 0; VFun "walls"]]) /\
    bcs !! "u1" = bcs !! "u0" /\
    bcs !! "p"
    = Some (VList [VObj "DirichletBC" [Q; Lshape.p_in; VFun "inlet"];
                   VObj "DirichletBC" [Q; VFloat 0; VFun "outlet"]]) /\
    (forall ui, ui ∈ names -> ui <> "u0" -> ui <> "u1" -> ui <> "p" ->
       bcs !! ui = Some (VList [])).
Proof.
  intros HV HQ Hsys. eexists. split_and!.
  - by apply lshape_create_bcs_bound.
  - rewrite !dom_insert_L, dom_gset_to_gmap. apply set_eq; intros x.
    rewrite !elem_of_union, !elem_of_singleton. tauto.
  - by rewrite lookup_insert_ne, lookup_insert_ne, lookup_insert_eq.
  - rewrite lookup_insert_ne, lookup_insert_eq by done.
    by rewrite lookup_insert_ne, lookup_insert_ne, lookup_insert_eq.
  - by rewrite lookup_insert_eq.
  - intros ui Hin H0 H1 Hp.
    rewrite !lookup_insert_ne by done.
    apply lookup_gset_to_gmap_Some. split; [|done].
    by apply elem_of_list_to_set.
Qed.

Lemma lshape_temporal_hook_bound (ctx : gmap string val)
    (a b : Z) (q : gmap string val) (u_ uv Vv : val) :
  ctx !! "tstep" = Some (VInt a) -> ctx !! "q_" = Some (VDict q) ->
  ctx !! "u_" = Some u_ -> ctx !! "uv" = Some uv -> ctx !! "Vv" = Some Vv ->
  ctx !! "plot_interval" = Some (VInt b) ->
  Lshape.temporal_hook ctx
  = if b =? 0 then raises ZeroDivisionError
    else if a `mod` b =? 0 then
      match q !! "p" with
      | Some qp =>
          HookResult [EPlot qp "Pressure";
                      EAssign uv (VObj "project" [u_; Vv]);
                      EPlot uv "Velocity"] (Return VNone)
      | None => raises (KeyError "p")
      end
    else returns VNone.
Proof.
  intros Ht Hq Hu Huv HVv Hp. unfold Lshape.temporal_hook.
  bind_arg Ht. bind_arg Hq. bind_arg Hu. bind_arg Huv. bind_arg HVv.
  bind_arg Hp. reflexivity.
Qed.

(** X10. When the L-shape problem plots. With integers for the time step
    [a] and the plot interval [b]: an interval 0 raises
    [ZeroDivisionError]; otherwise the hook acts exactly on the time
    steps that are multiples of the interval, where it plots the pressure,
    assigns the projected velocity and plots it, in this order; if the
    solution dictionary has no pressure it raises [KeyError] before
    anything is plotted; on every other time step it does nothing. *)
Theorem lshape_temporal_hook_schedule (ctx : gmap string val)
    (a b : Z) (q : gmap string val) (u_ uv Vv : val) :
  ctx !! "tstep" = Some (VInt a) -> ctx !! "q_" = Some (VDict q) ->
  ctx !! "u_" = Some u_ -> ctx !! "uv" = Some uv -> ctx !! "Vv" = Some Vv ->
  ctx !! "plot_interval" = Some (VInt b) ->
  (b = 0 -> Lshape.temporal_hook ctx = raises ZeroDivisionError) /\
  (b <> 0 -> ~ (b | a) -> Lshape.temporal_hook ctx = returns VNone) /\
  (b <> 0 -> (b | a) -> q !! "p" = None ->
     Lshape.temporal_hook ctx = raises (KeyError "p")) /\
  (forall qp, b <> 0 -> (b | a) -> q !! "p" = Some qp ->
     Lshape.temporal_hook ctx
     = HookResult [EPlot qp "Pressure";
                   EAssign uv (VObj "project" [u_; Vv]);
                   EPlot uv "Velocity"] (Return VNone)).
Proof.
  intros Ht Hq Hu Huv HVv Hp.
  rewrite (lshape_temporal_hook_bound ctx a b q u_ uv Vv) by assumption.
  split_and!.
  - by intros ->.
  - intros Hb Hdiv. rewrite (proj2 (Z.eqb_neq b 0) Hb).
    rewrite <- Z.mod_divide in Hdiv by done.
    by rewrite (proj2 (Z.eqb_neq _ 0) Hdiv).
  - intros Hb Hdiv Hnone. rewrite (proj2 (Z.eqb_neq b 0) Hb).
    rewrite <- Z.mod_divide in Hdiv by done.
    by rewrite Hdiv, Hnone.
  - intros qp Hb Hdiv Hsome. rewrite (proj2 (Z.eqb_neq b 0) Hb).
    rewrite <- Z.mod_divide in Hdiv by done.
    by rewrite Hdiv, Hsome.
Qed.

(** X10 on the example namespace: time step 4, interval 2. *)
Lemma lshape_temporal_hook_schedule_witness :
  Lshape.temporal_hook example_timestep_namespace
  = HookResult [EPlot (VGlobal "p_") "Pressure";
                EAssign (VGlobal "uv")
                  (VObj "project" [VGlobal "u_"; VGlobal "Vv"]);
                EPlot (VGlobal "uv") "Velocity"] (Return VNone).
Proof.
  apply (proj2 (proj2 (proj2
    (lshape_temporal_hook_schedule example_timestep_namespace 4 2
       (dict [("p", VGlobal "p_"); ("u0", VGlobal "u0_")])
       (VGlobal "u_") (VGlobal "uv") (VGlobal "Vv")
       eq_refl eq_refl eq_refl eq_refl eq_refl eq_refl))));
    [lia | by exists 2 | reflexivity].
Defined.

(** X9 on a namespace with the three unknowns of a plane flow and a
    scalar. *)
Lemma lshape_create_bcs_spec_witness :
  exists bcs : gmap string val,
    Lshape.create_bcs
      (dict [("V", VGlobal "V"); ("Q", VGlobal "Q");
             ("sys_comp", VList (VStr <$> ["u0"; "u1"; "p"; "alfa"]))])
    = returns (VDict bcs) /\
    bcs !! "alfa" = Some (VList []) /\
    size bcs = 4%nat.
Proof.
  destruct (lshape_create_bcs_spec
              (dict [("V", VGlobal "V"); ("Q", VGlobal "Q");
                     ("sys_comp", VList (VStr <$> ["u0"; "u1"; "p"; "alfa"]))])
              (VGlobal "V") (VGlobal "Q") ["u0"; "u1"; "p"; "alfa"]
              eq_refl eq_refl eq_refl)
    as (bcs & Hret & Hdom & _ & _ & _ & Hother).
  exists bcs. split_and!.
  - exact Hret.
  - apply Hother; [|done..]. rewrite !elem_of_cons. tauto.
  - rewrite <- size_dom, Hdom. vm_compute. reflexivity.
Defined.

(** X11. The set-up hook feeds the end-of-timestep hook. From a namespace
    without [uv] the end-of-timestep hook of the L-shape problem cannot be
    called; once the mapping returned by [pre_solve_hook] is merged into
    the namespace it can, and on a plotting time step what it assigns into
    and plots as velocity is the function that [pre_solve_hook] built on
    the piecewise linear vector space of the mesh. *)
Theorem lshape_pre_solve_then_temporal (ns : gmap string val)
    (mesh u_ qp : val) (a b : Z) (q : gmap string val) :
  ns !! "mesh" = Some mesh ->
  ns !! "tstep" = Some (VInt a) -> ns !! "plot_interval" = Some (VInt b) ->
  ns !! "q_" = Some (VDict q) -> ns !! "u_" = Some u_ ->
  q !! "p" = Some qp -> b <> 0 -> (b | a) ->
  let Vv := VObj "VectorFunctionSpace" [mesh; VStr "CG"; VInt 1] in
  let uv := VObj "Function" [Vv] in
  let update := dict [("Vv", Vv); ("uv", uv)] in
  Lshape.pre_solve_hook ns = returns (VDict update) /\
  Lshape.temporal_hook (dict_update ns update)
  = HookResult [EPlot qp "Pressure";
                EAssign uv (VObj "project" [u_; Vv]);
                EPlot uv "Velocity"] (Return VNone) /\
  (ns !! "uv" = None ->
   Lshape.temporal_hook ns = raises (MissingArgument "uv")).
Proof.
  intros Hmesh Ht Hp Hq Hu Hqp Hb Hdiv Vv uv update.
  assert (Hupd : forall k, k <> "Vv" -> k <> "uv" ->
            dict_update ns update !! k = ns !! k).
  { intros k H1 H2. apply dict_update_frame. unfold update, dict. simpl.
    by rewrite !lookup_insert_ne, lookup_empty. }
  split_and!.
  - unfold Lshape.pre_solve_hook. by bind_arg Hmesh.
  - rewrite (lshape_temporal_hook_bound _ a b q u_ uv Vv).
    + rewrite (proj2 (Z.eqb_neq b 0) Hb).
      rewrite <- Z.mod_divide in Hdiv by done. by rewrite Hdiv, Hqp.
    + by rewrite Hupd.
    + by rewrite Hupd.
    + by rewrite Hupd.
    + rewrite dict_update_lookup. unfold update, dict. simpl.
      by rewrite lookup_insert_eq.
    + rewrite dict_update_lookup. unfold update, dict. simpl.
      by rewrite lookup_insert_ne, lookup_insert_eq.
    + by rewrite Hupd.
  - intros Hnone. unfold Lshape.temporal_hook.
    bind_arg Ht. bind_arg Hq. bind_arg Hu.
    unfold arg at 1. by rewrite !lookup_delete_ne, Hnone.
Qed.

(** X11 on the example namespace, with a mesh and without [uv] and [Vv]. *)
Lemma lshape_pre_solve_then_temporal_witness :
  let ns := <["mesh" := VMesh 2 "mesh"]>
              (delete "uv" (delete "Vv" example_timestep_namespace)) in
  Lshape.temporal_hook ns = raises (MissingArgument "uv") /\
  exists update,
    Lshape.pre_solve_hook ns = returns (VDict update) /\
    effects (Lshape.temporal_hook (dict_update ns update))
    = [EPlot (VGlobal "p_") "Pressure";
       EAssign (VObj "Function"
                  [VObj "VectorFunctionSpace"
                     [VMesh 2 "mesh"; VStr "CG"; VInt 1]])
         (VObj "project"
            [VGlobal "u_";
             VObj "VectorFunctionSpace" [VMesh 2 "mesh"; VStr "CG"; VInt 1]]);
       EPlot (VObj "Function"
                [VObj "VectorFunctionSpace"
                   [VMesh 2 "mesh"; VStr "CG"; VInt 1]]) "Velocity"].
Proof.
  intros ns.
  destruct (lshape_pre_solve_then_temporal ns (VMesh 2 "mesh") (VGlobal "u_")
              (VGlobal "p_") 4 2
              (dict [("p", VGlobal "p_"); ("u0", VGlobal "u0_")])
              eq_refl eq_refl eq_refl eq_refl eq_refl eq_refl)
    as (Hpre & Htemp & Hmissing); [lia | by exists 2 |].
  split; [by apply Hmissing|].
  eexists. split; [exact Hpre|]. by rewrite Htemp.
Defined.

(** ** Time series files: names *)

Example path_join_plain : path_join "results" "Timeseries" = "results/Timeseries".
Proof. reflexivity. Qed.

Example path_join_after_slash : path_join "results/" "Timeseries" = "results/Timeseries".
Proof. reflexivity. Qed.

Example path_join_empty : path_join "" "Timeseries" = "Timeseries".
Proof. reflexivity. Qed.

Example path_join_absolute : path_join "results" "/tmp/u" = "/tmp/u".
Proof. reflexivity. Qed.

(** X8 on the velocity component [u0] at time step 20. *)
Lemma add_function_to_tstepfiles_filename_witness :
  xdmf_filename <$>
    add_function_to_tstepfiles example_name_of (VGlobal "u0")
      "results/data/1" ∅ 20 !! "u0"
  = Some "results/data/1/Timeseries/u0_from_tstep_20.xdmf".
Proof.
  apply (proj1 (add_function_to_tstepfiles_filename example_name_of
                  (VGlobal "u0") "results/data/1" ∅ ∅ 20 20)).
  reflexivity.
Defined.

(** ** Missing parameters *)

Lemma needs_body (f : gmap string val -> hook_result) : needs f [].
Proof. intros ctx p Hp. by apply elem_of_nil in Hp. Qed.

Lemma needs_arg (p : string) (req : list string)
    (k : val -> gmap string val -> hook_result) :
  (forall v, needs (k v) req) -> needs (arg p k) (p :: req).
Proof.
  intros Hk ctx q Hq Hnone. unfold arg.
  destruct (ctx !! p) as [v|] eqn:Hv.
  - apply elem_of_cons in Hq as [->|Hq]; [congruence|].
    apply (Hk v (delete p ctx) q Hq).
    destruct (decide (p = q)) as [->|Hne]; [congruence|].
    by rewrite lookup_delete_ne.
  - exists (MissingArgument p). split; reflexivity.
Qed.

(** X14. A hook cannot be called without the parameters it names: for
    every hook of the default problem and of the L-shape problem, a
    namespace that lacks one of them makes the call fail with the error of
    a call that lacks an argument, before the hook has had any effect. *)
Theorem hooks_need_their_parameters (pb : problem) (h : hook_slot)
    (ctx : gmap string val) (p : string) :
  p ∈ required pb h -> ctx !! p = None ->
  exists e, missing_argument e = true /\
    result (hook_of pb h ctx) = Raise e /\
    effects (hook_of pb h ctx) = [].
Proof.
  intros Hp Hnone.
  assert (Hneeds : needs (hook_of pb h) (required pb h)).
  { destruct pb, h; simpl;
      unfold body_force, scalar_source, create_bcs, Lshape.create_bcs,
        Lshape.pre_solve_hook, Lshape.start_timestep_hook,
        Lshape.temporal_hook;
      repeat (apply needs_arg; intros ?); apply needs_body. }
  destruct (Hneeds ctx p Hp Hnone) as (e & He & Hres).
  exists e. by rewrite Hres.
Qed.

(** X14 on the start-of-timestep hook of the L-shape problem, called
    without the time. *)
Lemma hooks_need_their_parameters_witness :
  exists e,
    missing_argument e = true /\
    result (hook_of LshapeProblem Hstart_timestep_hook
              (delete "t" example_namespace))
    = Raise e /\
    effects (hook_of LshapeProblem Hstart_timestep_hook
               (delete "t" example_namespace)) = [].
Proof.
  apply (hooks_need_their_parameters LshapeProblem Hstart_timestep_hook
           (delete "t" example_namespace) "t").
  - by left.
  - reflexivity.
Defined.
